(** * Verification of the two source-patching scripts [fix_note.py] and
      [fix_repo.py]

    Both scripts read a file in text mode, run [re.sub] with a two-group
    pattern and a replacement function, and write the result back.  The
    development embeds

    - the text the scripts work on, as a list of Unicode code points;
    - the backtracking matcher behind [re.sub] for the constructs the two
      patterns use (literals, greedy repetition of a character class, an
      optional character, concatenation, capturing groups);
    - the left-to-right, non-overlapping scan of [re.sub];
    - the files, the console and the text-mode newline handling of
      [open(..., "r")] and [open(..., "w")], as a state-and-exception monad. *)

From Stdlib Require Import NArith Lia Ascii String.
From stdpp Require Import gmap strings list.

Open Scope N_scope.
Open Scope nat_scope.
Open Scope list_scope.

(** ** Text *)

(** A Python [str] is a sequence of code points. *)
Definition text := list N.

(** [T "abc"] is the text of an ASCII literal. *)
Definition T (s : string) : text :=
  map Ascii.N_of_ascii (String.list_ascii_of_string s).

Definition LF : N := 10%N.
Definition CR : N := 13%N.
Definition SPACE : N := 32%N.
Definition DQUOTE : N := 34%N.
Definition COMMA : N := 44%N.
Definition RBRACE : N := 125%N.

(** [\s] on a [str] pattern: the code points for which [str.isspace] holds. *)
Definition isspace (c : N) : bool :=
  ((9 <=? c) && (c <=? 13) || (28 <=? c) && (c <=? 32)
   || (c =? 133) || (c =? 160) || (c =? 5760)
   || (8192 <=? c) && (c <=? 8202)
   || (c =? 8232) || (c =? 8233) || (c =? 8239) || (c =? 8287)
   || (c =? 12288))%N.

(** [[^}]] *)
Definition not_rbrace (c : N) : bool := negb (c =? RBRACE)%N.

(** [[^,\n]] *)
Definition not_comma_nl (c : N) : bool :=
  negb (c =? COMMA)%N && negb (c =? LF)%N.

(** Any character but [n], the first of [note_type,]. *)
Definition not_n (c : N) : bool := negb (c =? 110)%N.

(** [starts_with l s]: [s.startswith(l)]. *)
Fixpoint starts_with (l s : text) : bool :=
  match l, s with
  | [], _ => true
  | c :: l', x :: s' => (x =? c)%N && starts_with l' s'
  | _ :: _, [] => false
  end.

(** [s.count]-like: the number of offsets at which [l] occurs in [s]
    (overlapping occurrences included). *)
Fixpoint occurrences (l s : text) : nat :=
  match s with
  | [] => if starts_with l [] then 1 else 0
  | _ :: s' => (if starts_with l s then 1 else 0) + occurrences l s'
  end.

(** The field both scripts insert, with its comment. *)
Definition PROJECT_IDS_FIELD : text := Eval cbv in
  T "project_ids: vec![], // Empty by default - relationships managed separately".

(** ** Regular expressions *)

Module Re.

(** The pattern constructs that occur in the two scripts.  Every repetition
    in them is a greedy [*] over a character class. *)
Inductive regex : Type :=
| Str (l : text)              (* a run of literal characters *)
| Star (cls : N -> bool)      (* [cls*], greedy *)
| Opt (c : N)                 (* [c?], greedy *)
| Cat (r1 r2 : regex)         (* [r1 r2] *)
| Grp (n : nat) (r : regex).  (* capturing group number [n] *)

Definition captures := list (nat * text).

(** [match.group(n)]; the most recent binding of group [n]. *)
Fixpoint group (n : nat) (caps : captures) : text :=
  match caps with
  | [] => []
  | (m, x) :: caps' => if Nat.eqb m n then x else group n caps'
  end.

Section Matcher.
Context {A : Type}.

Definition orelse (a b : option A) : option A :=
  match a with Some _ => a | None => b end.

(** Literal run: every character must be there. *)
Fixpoint lit (l s : text) (k : text -> option A) : option A :=
  match l with
  | [] => k s
  | c :: l' =>
      match s with
      | x :: s' => if (x =? c)%N then lit l' s' k else None
      | [] => None
      end
  end.

(** Greedy repetition: take one more character when the class allows it
    and the rest of the pattern then succeeds; otherwise stop here. *)
Fixpoint star (cls : N -> bool) (s : text) (k : text -> option A)
  : option A :=
  match s with
  | x :: s' => if cls x then orelse (star cls s' k) (k s) else k s
  | [] => k s
  end.

(** Optional character: try with it first, then without. *)
Definition opt (c : N) (s : text) (k : text -> option A) : option A :=
  match s with
  | x :: s' => if (x =? c)%N then orelse (k s') (k s) else k s
  | [] => k s
  end.

(** The backtracking matcher, in continuation-passing style: [k] is the
    rest of the pattern, run on the text that is left. *)
Fixpoint exec (r : regex) (s : text) (caps : captures)
    (k : text -> captures -> option A) : option A :=
  match r with
  | Str l => lit l s (fun s' => k s' caps)
  | Star cls => star cls s (fun s' => k s' caps)
  | Opt c => opt c s (fun s' => k s' caps)
  | Cat r1 r2 => exec r1 s caps (fun s' caps' => exec r2 s' caps' k)
  | Grp n r1 =>
      exec r1 s caps
        (fun s' caps' => k s' ((n, take (length s - length s') s) :: caps'))
  end.
End Matcher.

(** [pattern.match] at the start of [s]: the groups and the text after the
    match. *)
Definition re_match (r : regex) (s : text) : option (captures * text) :=
  exec r s [] (fun s' caps => Some (caps, s')).

(** [re.sub(pattern, repl, s)] for a callable [repl]: scan from the left;
    where the pattern matches, emit the replacement and go on after the
    match; elsewhere copy one character.  [skip] counts the characters of
    the current match that are still to be passed over.  A match of the
    patterns here is never empty; an empty one is replaced and the next
    character copied. *)
Fixpoint sub_from (r : regex) (repl : captures -> text) (skip : nat)
    (s : text) : text :=
  match s with
  | [] =>
      match skip, re_match r [] with
      | O, Some (caps, _) => repl caps
      | _, _ => []
      end
  | c :: s' =>
      match skip with
      | S n => sub_from r repl n s'
      | O =>
          match re_match r s with
          | Some (caps, rest) =>
              match length s - length rest with
              | O => repl caps ++ c :: sub_from r repl 0 s'
              | S n => repl caps ++ sub_from r repl n s'
              end
          | None => c :: sub_from r repl 0 s'
          end
      end
  end.

Definition sub (r : regex) (repl : captures -> text) (s : text) : text :=
  sub_from r repl 0 s.

(** [re.finditer]: the matches that [sub] replaces, each with the offset at
    which it starts. *)
Fixpoint finditer_from (r : regex) (pos skip : nat) (s : text)
    : list (nat * captures) :=
  match s with
  | [] =>
      match skip, re_match r [] with
      | O, Some (caps, _) => [(pos, caps)]
      | _, _ => []
      end
  | c :: s' =>
      match skip with
      | S n => finditer_from r (S pos) n s'
      | O =>
          match re_match r s with
          | Some (caps, rest) =>
              (pos, caps)
                :: finditer_from r (S pos) (pred (length s - length rest)) s'
          | None => finditer_from r (S pos) 0 s'
          end
      end
  end.

Definition finditer (r : regex) (s : text) : list (nat * captures) :=
  finditer_from r 0 0 s.

(** What a pattern consumes, and the groups it binds on the way. *)
Inductive sem : regex -> text -> captures -> captures -> Prop :=
| sem_str l caps : sem (Str l) l caps caps
| sem_star cls x caps : forallb cls x = true -> sem (Star cls) x caps caps
| sem_opt_none c caps : sem (Opt c) [] caps caps
| sem_opt_some c caps : sem (Opt c) [c] caps caps
| sem_cat r1 r2 x1 x2 c0 c1 c2 :
    sem r1 x1 c0 c1 -> sem r2 x2 c1 c2 -> sem (Cat r1 r2) (x1 ++ x2) c0 c2
| sem_grp n r x c0 c1 : sem r x c0 c1 -> sem (Grp n r) x c0 ((n, x) :: c1).

(** No match anywhere in [s]: [sub] replaces nothing there. *)
Definition nowhere (r : regex) (s : text) : Prop :=
  forall pre t, s = pre ++ t -> re_match r t = None.

End Re.

Import Re.

(** ** Files and console *)

Module Os.

(** What a run does to the outside world, in order. *)
Inductive event : Type :=
| EvExists (path : string) (found : bool)   (* [os.path.exists] *)
| EvRead (path : string)                    (* [open(path, "r")] and [read] *)
| EvWrite (path : string) (raw : text)      (* [open(path, "w")] and [write] *)
| EvPrint (line : string).                  (* [print] *)

(** The files (decoded, as they are on disk), the platform's line
    separator [os.linesep] and the events so far.  A path names a regular,
    readable and writable file or nothing. *)
Record world : Type := World {
  files : gmap string text;
  linesep : text;
  trace : list event
}.

Definition log (e : event) (w : world) : world :=
  World (files w) (linesep w) (trace w ++ [e]).

Inductive exn : Type :=
| FileNotFoundError (path : string).

Inductive result (A : Type) : Type :=
| Ok (a : A) (w : world)
| Raised (e : exn) (w : world).
Arguments Ok {A} a w.
Arguments Raised {A} e w.

(** A computation that changes the world and returns or raises. *)
Definition M (A : Type) : Type := world -> result A.

#[export] Instance M_ret : MRet M := fun A a w => Ok a w.
#[export] Instance M_bind : MBind M := fun A B f m w =>
  match m w with
  | Ok a w' => f a w'
  | Raised e w' => Raised e w'
  end.

(** Text mode with the default [newline=None].  On input every line ending,
    [\r\n] or a lone [\r], is handed over as [\n]. *)
Fixpoint read_newlines (raw : text) : text :=
  match raw with
  | [] => []
  | c :: raw' =>
      if (c =? CR)%N then
        match raw' with
        | d :: raw'' =>
            if (d =? LF)%N then LF :: read_newlines raw''
            else LF :: read_newlines raw'
        | [] => [LF]
        end
      else c :: read_newlines raw'
  end.

(** On output every [\n] is written as [os.linesep]. *)
Fixpoint write_newlines (sep : text) (data : text) : text :=
  match data with
  | [] => []
  | c :: data' =>
      (if (c =? LF)%N then sep else [c]) ++ write_newlines sep data'
  end.

(** [with open(path, "r") as f: content = f.read()] *)
Definition open_read (path : string) : M text := fun w =>
  match files w !! path with
  | Some raw => Ok (read_newlines raw) (log (EvRead path) w)
  | None => Raised (FileNotFoundError path) w
  end.

(** [with open(path, "w") as f: f.write(data)] *)
Definition open_write (path : string) (data : text) : M unit := fun w =>
  let raw := write_newlines (linesep w) data in
  Ok tt (World (<[path := raw]> (files w)) (linesep w)
               (trace w ++ [EvWrite path raw])).

(** [os.path.exists(path)] *)
Definition path_exists (path : string) : M bool := fun w =>
  let found := bool_decide (is_Some (files w !! path)) in
  Ok found (log (EvExists path found) w).

Definition print (line : string) : M unit := fun w =>
  Ok tt (log (EvPrint line) w).

(** [for x in xs: body(x)] *)
Fixpoint for_each {X : Type} (xs : list X) (body : X -> M unit) : M unit :=
  match xs with
  | [] => mret tt
  | x :: xs' => body x ;; for_each xs' body
  end.

(** What a run printed, and the paths it wrote. *)
Definition printed (evs : list event) : list string :=
  omap (fun e => match e with EvPrint l => Some l | _ => None end) evs.

Definition written (evs : list event) : list string :=
  omap (fun e => match e with EvWrite p _ => Some p | _ => None end) evs.

Definition opened (evs : list event) : list string :=
  omap (fun e => match e with
                 | EvRead p | EvWrite p _ => Some p
                 | _ => None
                 end) evs.

Definition probed (evs : list event) : list string :=
  omap (fun e => match e with EvExists p _ => Some p | _ => None end) evs.

(** The events of a run that started in [w] and ended in [w']. *)
Definition since (w w' : world) : list event :=
  drop (length (trace w)) (trace w').

Definition not_cr (c : N) : bool := negb (c =? CR)%N.

End Os.

Import Os.

(** ** fix_note.py *)

Module FixNote.

(** [created_at: row.get("created_at"),] *)
Definition CREATED_AT : text := Eval cbv in
  T "created_at: row.get(" ++ [DQUOTE] ++ T "created_at" ++ [DQUOTE] ++ T "),".

Definition NOTE_OPEN : text := Eval cbv in T "Note {".
Definition NOTE_TYPE : text := Eval cbv in T "note_type,".

(** The pattern, group by group:
    group 1 is [Note \{] [[^}]*] [note_type,] [\s*],
    group 2 is [created_at: row\.get\(] ["created_at"] [\),]. *)
Definition pattern : regex :=
  Cat (Grp 1 (Cat (Str NOTE_OPEN)
             (Cat (Star not_rbrace)
             (Cat (Str NOTE_TYPE) (Star isspace)))))
      (Grp 2 (Str CREATED_AT)).

(** The text the f-string puts between the two groups. *)
Definition INSERTED : text := Eval cbv in
  T "project_ids: vec![], // Empty by default - relationships managed separately"
  ++ [LF] ++ T "                    ".

Definition replace_func (m : captures) : text :=
  let prefix := group 1 m in
  let created_at_line := group 2 m in
  prefix ++ INSERTED ++ created_at_line.

(** [re.sub(pattern, replace_func, content, flags=re.DOTALL)].  The pattern
    has no [.], so the flag changes nothing. *)
Definition new_content (content : text) : text :=
  sub pattern replace_func content.

Definition note_rs : string := "src/db/sqlite/note.rs".

(** The script, top to bottom. *)
Definition main : M unit :=
  content ← open_read note_rs;
  open_write note_rs (new_content content);;
  print "Fixed Note constructors".

End FixNote.

(** ** fix_repo.py *)

Module FixRepo.

Definition REPO_OPEN : text := Eval cbv in T "Repo {".
Definition TAGS : text := Eval cbv in T "tags: ".
Definition CREATED : text := Eval cbv in T "created_at: ".

(** The pattern, group by group:
    group 1 is [Repo \{] [[^}]*] [tags: ] [[^,\n]*] [,?] [\s*],
    group 2 is [created_at: ] [[^,\n]*] [,]. *)
Definition pattern : regex :=
  Cat (Grp 1 (Cat (Str REPO_OPEN)
             (Cat (Star not_rbrace)
             (Cat (Str TAGS)
             (Cat (Star not_comma_nl)
             (Cat (Opt COMMA) (Star isspace)))))))
      (Grp 2 (Cat (Str CREATED)
             (Cat (Star not_comma_nl) (Str [COMMA])))).

Definition INSERTED : text := Eval cbv in
  T "project_ids: vec![], // Empty by default - relationships managed separately"
  ++ [LF] ++ T "        ".

Definition replace_func (m : captures) : text :=
  let prefix := group 1 m in
  let created_at_line := group 2 m in
  prefix ++ INSERTED ++ created_at_line.

Definition new_content (content : text) : text :=
  sub pattern replace_func content.

Definition fix_repo_constructors (file_path : string) : M unit :=
  content ← open_read file_path;
  if decide (new_content content ≠ content) then
    open_write file_path (new_content content);;
    print ("Fixed " +:+ file_path)
  else
    print ("No changes needed for " +:+ file_path).

Definition files_to_fix : list string :=
  ["src/db/sqlite/repo_test.rs"; "src/db/sqlite/critical_tests.rs"].

(** The line a run prints for one candidate path, read off the files as
    they were before the run. *)
Definition status (fs : gmap string text) (file_path : string) : string :=
  match fs !! file_path with
  | None => "File not found: " +:+ file_path
  | Some raw =>
      match finditer pattern (read_newlines raw) with
      | [] => "No changes needed for " +:+ file_path
      | _ :: _ => "Fixed " +:+ file_path
      end
  end.

(** The body of the loop over [files_to_fix]. *)
Definition fix_or_report (file_path : string) : M unit :=
  found ← path_exists file_path;
  if found : bool then fix_repo_constructors file_path
  else print ("File not found: " +:+ file_path).

Definition main : M unit := for_each files_to_fix fix_or_report.

End FixRepo.

(** ** Sample texts *)

Module Samples.
Import FixNote.

(** The fragment of the specification's end-to-end example, and the output
    the specification expects for it. *)
Definition spec_fragment : text :=
  T "Note { id: 1, note_type: NoteType::Text, " ++ CREATED_AT ++ T " }".

Definition spec_expected : text :=
  T "Note { id: 1, note_type: NoteType::Text, " ++ PROJECT_IDS_FIELD
  ++ [LF] ++ T " " ++ CREATED_AT ++ T " }".

(** The same construction with the field-init shorthand [note_type,]. *)
Definition shorthand_fragment : text :=
  T "Note { id: 1, note_type, " ++ CREATED_AT ++ T " }".

Definition shorthand_patched : text :=
  T "Note { id: 1, note_type, " ++ PROJECT_IDS_FIELD
  ++ [LF] ++ repeat SPACE 20 ++ CREATED_AT ++ T " }".

(** A construction over three lines. *)
Definition multiline_mid : text := [LF] ++ T "    id: 1," ++ [LF] ++ T "    ".
Definition multiline_ws : text := [LF] ++ T "    ".

(** A closing brace between the opener and [note_type,]. *)
Definition braced : text :=
  NOTE_OPEN ++ [RBRACE] ++ NOTE_TYPE ++ CREATED_AT.

(** Another field between [note_type,] and the assignment. *)
Definition separated : text :=
  T "Note { note_type, id: 1, " ++ CREATED_AT ++ T " }".

(** Two constructions, each with its own assignment. *)
Definition two_constructions : text :=
  T "Note {note_type," ++ CREATED_AT ++ T "} Note {note_type," ++ CREATED_AT
  ++ T "}".

(** Two [note_type,] assignments after one opener, no brace in between. *)
Definition twice : text :=
  T "Note {note_type," ++ CREATED_AT ++ T "note_type," ++ CREATED_AT.

(** Two [tags:] fields with their assignments after one opener. *)
Definition repo_twice : text :=
  T "Repo {tags: a," ++ FixRepo.CREATED ++ T "b,tags: c,"
  ++ FixRepo.CREATED ++ T "d,".

(** A file with Windows line endings and no match, and worlds to run in. *)
Definition crlf_text : text := T "a" ++ [CR; LF] ++ T "b".

Definition plain_text : text := T "fn main() {" ++ [LF] ++ T "}" ++ [LF].

Definition repo_text : text :=
  T "Repo { id: 1, tags: vec![], " ++ FixRepo.CREATED ++ T "now, }".

Definition crlf_world : world :=
  World {[ note_rs := crlf_text ]} [LF] [].

Definition plain_world : world :=
  World (<[ note_rs := plain_text ]>
           {[ "src/db/sqlite/critical_tests.rs" := plain_text ]}) [LF] [].

End Samples.

(** ** What a second run can match *)

Module Hits.

(** [note_type,], whitespace and the assignment: what group 1 must end in
    and group 2 must be. *)
Definition hit_pattern : regex :=
  Cat (Str FixNote.NOTE_TYPE) (Cat (Star isspace) (Str FixNote.CREATED_AT)).

Definition is_hit (t : text) : bool :=
  match exec hit_pattern t [] (fun _ _ => Some tt) with
  | Some _ => true
  | None => false
  end.

(** Such a sequence starts somewhere in [t]. *)
Fixpoint has_hit (t : text) : bool :=
  match t with
  | [] => false
  | _ :: t' => is_hit t || has_hit t'
  end.

(** Such a sequence starts in [t] before any closing brace. *)
Fixpoint reach (t : text) : bool :=
  match t with
  | [] => false
  | c :: t' => is_hit t || (not_rbrace c && reach t')
  end.

(** The inserted text starts with the one [p] before its newline. *)
Definition not_p (c : N) : bool := negb (c =? 112)%N.

(** No group 1 of the matches holds a further [note_type,] assignment. *)
Definition clean (matches : list (nat * captures)) : bool :=
  forallb (fun pm => negb (has_hit (group 1 (snd pm)))) matches.

End Hits.

(** ** What a second run of fix_repo.py can match *)

Module RepoHits.
Import FixRepo.

(** [tags: ], a value, an optional comma and whitespace: what group 1 of the
    Repo pattern ends in. *)
Definition lead : regex :=
  Cat (Str TAGS) (Cat (Star not_comma_nl) (Cat (Opt COMMA) (Star isspace))).

(** [created_at: ], a value and the comma: what group 2 is. *)
Definition assignment : regex :=
  Cat (Str CREATED) (Cat (Star not_comma_nl) (Str [COMMA])).

Definition pair_pattern : regex := Cat lead assignment.

(** A [tags: ] field directly followed by a [created_at: ] field starts
    here. *)
Definition is_pair (t : text) : bool :=
  match exec pair_pattern t [] (fun _ _ => Some tt) with
  | Some _ => true
  | None => false
  end.

(** Such a pair starts in [t] before any closing brace. *)
Fixpoint reach_pair (t : text) : bool :=
  match t with
  | [] => false
  | c :: t' => is_pair t || (not_rbrace c && reach_pair t')
  end.

(** Behind the opener of a match and before the pair the match ends in,
    a further pair is in reach.  Its [created_at: ] value may run up to the
    end of group 1; then the comma of the inserted field ends it. *)
Definition further_pair (m : captures) : bool :=
  reach_pair (drop (length REPO_OPEN) (group 1 m) ++ INSERTED).

(** The matched text holds a second [Repo {]. *)
Definition second_opener (m : captures) : bool :=
  negb (occurrences REPO_OPEN (tail (group 1 m ++ group 2 m)) =? 0).

(** Any character but [R], the first of [Repo {]. *)
Definition not_cap_r (c : N) : bool := negb (c =? 82)%N.

Definition clean (matches : list (nat * captures)) : bool :=
  forallb (fun pm => negb (further_pair (snd pm))) matches.

(** The matched text holds no closing brace. *)
Definition brace_free (m : captures) : bool :=
  forallb not_rbrace (group 1 m ++ group 2 m).

(** No second opener in the match, or no closing brace. *)
Definition plain (m : captures) : bool :=
  negb (second_opener m) || brace_free m.

Definition all_plain (matches : list (nat * captures)) : bool :=
  forallb (fun pm => plain (snd pm)) matches.

End RepoHits.

(** The pair pattern, construct by construct, as the matcher runs it. *)

Module RepoPhases.
Import FixRepo.

(** The pair pattern, one construct after the other. *)
Definition final_comma (s : text) : option unit :=
  lit [COMMA] s (fun _ => Some tt).
Definition created_value (s : text) : option unit :=
  star not_comma_nl s final_comma.
Definition created_field (s : text) : option unit :=
  lit CREATED s created_value.
Definition lead_space (s : text) : option unit :=
  star isspace s created_field.
Definition lead_comma (s : text) : option unit :=
  opt COMMA s lead_space.
Definition tags_value (s : text) : option unit :=
  star not_comma_nl s lead_comma.
Definition tags_field (s : text) : option unit :=
  lit TAGS s tags_value.

End RepoPhases.

(** ** More sample files *)

Module Cases.

(** A Windows machine with a Note file that has nothing to patch. *)
Definition windows_world : world :=
  World {[ FixNote.note_rs := Samples.crlf_text ]} [CR; LF] [].

Definition repo_crlf : text :=
  T "Repo {" ++ [CR; LF] ++ T "    tags: vec![]," ++ [CR; LF] ++ T "    "
  ++ FixRepo.CREATED ++ T "now," ++ [CR; LF] ++ T "}".

(** A Note file and the first Repo file with Windows line endings on a
    machine whose separator is [\n]; the second Repo file is missing. *)
Definition mixed_world : world :=
  World (<[ FixNote.note_rs := Samples.crlf_text ]>
           {[ "src/db/sqlite/repo_test.rs" := repo_crlf ]}) [LF] [].

(** What may follow the assignment in a construction: more fields and the
    closing brace. *)
Definition more_fields : text :=
  [LF] ++ T "    updated_at: now," ++ [LF] ++ T "}".

(** A machine that has only the Note file, with nothing to patch, and a
    Windows machine that has only one Repo file, with Windows line endings
    and nothing to patch. *)
Definition note_only_world : world :=
  World {[ FixNote.note_rs := Samples.plain_text ]} [LF] [].

Definition repo_only_world : world :=
  World {[ "src/db/sqlite/critical_tests.rs" := Samples.crlf_text ]}
        [CR; LF] [].

(** A machine that has only a Repo file to patch, with Windows line
    endings. *)
Definition repo_crlf_world : world :=
  World {[ "src/db/sqlite/repo_test.rs" := repo_crlf ]} [LF] [].

(** Two Repo constructions and, between them, another struct with a
    [created_at: ] field of its own. *)
Definition repo_file : text :=
  T "Repo { id: 1, tags: vec![], " ++ FixRepo.CREATED ++ T "a, }" ++ [LF]
  ++ T "Project { id: 7, " ++ FixRepo.CREATED ++ T "p, }" ++ [LF]
  ++ T "Repo { id: 2, tags: vec![]," ++ [LF] ++ T "    "
  ++ FixRepo.CREATED ++ T "b, }".

End Cases.

(** ** Facts about the matcher *)

Module ReFacts.

Section MatcherFacts.
Context {A : Type}.
Implicit Types (k : text -> option A) (s l x : text).

Lemma lit_inv l s k a :
  lit l s k = Some a -> exists s', s = l ++ s' /\ k s' = Some a.
Proof.
  revert s. induction l as [|c l IH]; intros s H; simpl in H.
  - exists s. auto.
  - destruct s as [|y s']; [discriminate|].
    destruct (N.eqb_spec y c) as [->|]; [|discriminate].
    destruct (IH _ H) as (s'' & -> & Hk). exists s''. auto.
Qed.

Lemma lit_app l s k : lit l (l ++ s) k = k s.
Proof.
  induction l as [|c l IH]; simpl; [reflexivity|].
  rewrite N.eqb_refl. exact IH.
Qed.

(** A literal fails on a text that does not start with its first
    character. *)
Lemma lit_head_fail c l s k :
  head l = Some c -> head s <> Some c -> lit l s k = None.
Proof.
  destruct l as [|c' l]; [discriminate|]. intros [= ->].
  destruct s as [|y s']; simpl; [reflexivity|]. intros H.
  destruct (N.eqb_spec y c) as [->|]; [congruence|reflexivity].
Qed.

Lemma star_inv cls s k a :
  star cls s k = Some a ->
  exists x s', s = x ++ s' /\ forallb cls x = true /\ k s' = Some a.
Proof.
  induction s as [|y s IH]; simpl; intros H.
  - exists [], []. auto.
  - destruct (cls y) eqn:Hy.
    + destruct (star cls s k) as [b|] eqn:Hs; simpl in H.
      * destruct (IH H) as (x & s' & -> & Hx & Hk).
        exists (y :: x), s'. simpl. rewrite Hy, Hx. auto.
      * exists [], (y :: s). auto.
    + exists [], (y :: s). auto.
Qed.

Lemma opt_inv c s k a :
  opt c s k = Some a ->
  exists x s', s = x ++ s' /\ (x = [] \/ x = [c]) /\ k s' = Some a.
Proof.
  unfold opt. destruct s as [|y s']; intros H.
  - exists [], []. auto.
  - destruct (N.eqb_spec y c) as [->|].
    + destruct (k s') as [b|] eqn:Hk; simpl in H.
      * exists [c], s'. rewrite Hk. auto.
      * exists [], (c :: s'). auto.
    + exists [], (y :: s'). auto.
Qed.
End MatcherFacts.

Lemma exec_sound {A} (r : regex) :
  forall s caps (k : text -> captures -> option A) a,
    exec r s caps k = Some a ->
    exists x s' caps', s = x ++ s' /\ sem r x caps caps' /\ k s' caps' = Some a.
Proof.
  induction r as [l|cls|c|r1 IH1 r2 IH2|n r IH]; intros s caps k a H; simpl in H.
  - apply lit_inv in H as (s' & -> & Hk).
    exists l, s', caps. split; [reflexivity|]. split; [constructor|exact Hk].
  - apply star_inv in H as (x & s' & -> & Hx & Hk).
    exists x, s', caps. split; [reflexivity|]. split; [by constructor|exact Hk].
  - apply opt_inv in H as (x & s' & -> & [->| ->] & Hk);
      eexists _, s', caps; (split; [reflexivity|]); (split; [constructor|exact Hk]).
  - apply IH1 in H as (x1 & s1 & c1 & -> & Hs1 & H).
    apply IH2 in H as (x2 & s2 & c2 & -> & Hs2 & H).
    exists (x1 ++ x2), s2, c2. rewrite <- app_assoc.
    split; [reflexivity|]. split; [econstructor; eassumption|exact H].
  - apply IH in H as (x & s' & c1 & -> & Hs & H).
    rewrite length_app, Nat.add_sub, take_app_length in H.
    exists x, s', ((n, x) :: c1). split; [reflexivity|].
    split; [by constructor|exact H].
Qed.

Lemma re_match_sound r s caps rest :
  re_match r s = Some (caps, rest) ->
  exists x, s = x ++ rest /\ sem r x [] caps.
Proof.
  unfold re_match. intros H.
  apply exec_sound in H as (x & s' & c & -> & Hs & [= <- <-]). eauto.
Qed.

(** Backtracking finds a match whenever there is one. *)
Lemma star_here {A} cls s (k : text -> option A) :
  is_Some (k s) -> is_Some (star cls s k).
Proof.
  intros [a Ha]. destruct s as [|y s]; simpl; [eauto|].
  destruct (cls y); [|eauto].
  destruct (star cls s k); simpl; eauto.
Qed.

Lemma star_some {A} cls x s (k : text -> option A) :
  forallb cls x = true -> is_Some (k s) -> is_Some (star cls (x ++ s) k).
Proof.
  intros Hx Hk. induction x as [|y x IH]; simpl; [by apply star_here|].
  simpl in Hx. apply andb_true_iff in Hx as [-> Hx].
  destruct (IH Hx) as [a ->]. simpl. eauto.
Qed.

Lemma exec_complete {A} r x c0 c1 :
  sem r x c0 c1 ->
  forall s' (k : text -> captures -> option A),
    (forall caps, is_Some (k s' caps)) ->
    forall caps, is_Some (exec r (x ++ s') caps k).
Proof.
  induction 1 as [l c|cls x c Hx|c c'|c c'|r1 r2 x1 x2 c0 c1 c2 _ IH1 _ IH2
                 |n r x c0 c1 _ IH]; intros s' k Hk caps; simpl.
  - rewrite lit_app. apply Hk.
  - apply star_some; [exact Hx|apply Hk].
  - unfold opt. destruct s' as [|y s']; [apply Hk|].
    destruct (y =? c)%N; [|apply Hk].
    destruct (Hk caps) as [a ->]. destruct (k s' caps); simpl; eauto.
  - unfold opt. rewrite N.eqb_refl.
    destruct (Hk caps) as [a ->]. simpl. eauto.
  - rewrite <- app_assoc. apply IH1. intros caps'. by apply IH2.
  - apply IH. intros caps'. apply Hk.
Qed.

(** The scan of [sub] and [finditer], for a pattern whose matches are never
    empty. *)
Section ScanFacts.
Variable r : regex.
Variable repl : captures -> text.
Hypothesis nonempty :
  forall s caps rest, re_match r s = Some (caps, rest) -> length rest < length s.

Lemma sub_from_skip pre rest :
  sub_from r repl (length pre) (pre ++ rest) = sub_from r repl 0 rest.
Proof. induction pre as [|c pre IH]; simpl; [reflexivity|exact IH]. Qed.

Lemma finditer_from_skip pos pre rest :
  finditer_from r pos (length pre) (pre ++ rest)
  = finditer_from r (pos + length pre) 0 rest.
Proof.
  revert pos. induction pre as [|c pre IH]; intros pos; simpl.
  - by rewrite Nat.add_0_r.
  - rewrite IH. f_equal. lia.
Qed.

Lemma match_nil : re_match r [] = None.
Proof using nonempty.
  destruct (re_match r []) as [[caps rest]|] eqn:H; [|reflexivity].
  apply nonempty in H. simpl in H. lia.
Qed.

Lemma sub_nil : sub r repl [] = [].
Proof using nonempty. unfold sub. simpl. by rewrite match_nil. Qed.

Lemma sub_nomatch c s :
  re_match r (c :: s) = None -> sub r repl (c :: s) = c :: sub r repl s.
Proof. unfold sub. simpl. by intros ->. Qed.

Lemma sub_match s caps rest :
  re_match r s = Some (caps, rest) ->
  sub r repl s = repl caps ++ sub r repl rest.
Proof using nonempty.
  intros H. pose proof (nonempty _ _ _ H) as Hlt.
  destruct (re_match_sound _ _ _ _ H) as (x & -> & _).
  rewrite length_app in Hlt.
  destruct x as [|c x]; [simpl in Hlt; lia|].
  unfold sub. simpl. simpl in H. rewrite H.
  replace (S (length (x ++ rest)) - length rest) with (S (length x))
    by (rewrite length_app; lia).
  by rewrite sub_from_skip.
Qed.

Lemma finditer_from_nil pos : finditer_from r pos 0 [] = [].
Proof using nonempty. simpl. by rewrite match_nil. Qed.

Lemma finditer_from_nomatch pos c s :
  re_match r (c :: s) = None ->
  finditer_from r pos 0 (c :: s) = finditer_from r (S pos) 0 s.
Proof. simpl. by intros ->. Qed.

Lemma finditer_from_match pos x caps rest :
  re_match r (x ++ rest) = Some (caps, rest) ->
  finditer_from r pos 0 (x ++ rest)
  = (pos, caps) :: finditer_from r (pos + length x) 0 rest.
Proof using nonempty.
  intros H. pose proof (nonempty _ _ _ H) as Hlt.
  rewrite length_app in Hlt.
  destruct x as [|c x]; [simpl in Hlt; lia|].
  simpl. simpl in H. rewrite H. f_equal.
  replace (S (length (x ++ rest)) - length rest) with (S (length x))
    by (rewrite length_app; lia).
  simpl. rewrite finditer_from_skip. f_equal. lia.
Qed.

Local Abbreviation nowhere := (Re.nowhere r).

Lemma nowhere_tail c s : nowhere (c :: s) -> nowhere s.
Proof. intros H pre t ->. by apply (H (c :: pre)). Qed.

Lemma sub_nowhere s : nowhere s -> sub r repl s = s.
Proof using nonempty.
  induction s as [|c s IH]; intros H; [apply sub_nil|].
  rewrite sub_nomatch by (by apply (H [])).
  f_equal. apply IH. by apply nowhere_tail in H.
Qed.

Lemma finditer_from_nowhere pos s :
  finditer_from r pos 0 s = [] <-> nowhere s.
Proof using nonempty.
  revert pos. induction s as [|c s IH]; intros pos.
  - split; [|intros; apply finditer_from_nil].
    intros _ pre t Heq. symmetry in Heq.
    apply app_eq_nil in Heq as [_ ->]. apply match_nil.
  - destruct (re_match r (c :: s)) as [[caps rest]|] eqn:Hm.
    + destruct (re_match_sound _ _ _ _ Hm) as (x & Hx & _).
      rewrite Hx in Hm |- *. rewrite (finditer_from_match _ _ _ _ Hm).
      split; [discriminate|]. intros H. specialize (H [] _ eq_refl). congruence.
    + rewrite (finditer_from_nomatch _ _ _ Hm), IH.
      split; [|apply nowhere_tail].
      intros H [|c' pre] t Heq; simpl in Heq.
      * by subst t.
      * injection Heq as -> ->. by apply (H pre).
Qed.

(** Exactly one match: the output is the input with the match replaced. *)
Lemma finditer_from_one pos s p caps :
  finditer_from r pos 0 s = [(p, caps)] ->
  exists pre x rest,
    s = pre ++ x ++ rest /\ p = pos + length pre /\
    re_match r (x ++ rest) = Some (caps, rest) /\
    sub r repl s = pre ++ repl caps ++ rest.
Proof using nonempty.
  revert pos. induction s as [|c s IH]; intros pos H.
  - by rewrite finditer_from_nil in H.
  - destruct (re_match r (c :: s)) as [[caps' rest]|] eqn:Hm.
    + destruct (re_match_sound _ _ _ _ Hm) as (x & Hx & _).
      rewrite Hx in Hm, H |- *. rewrite (finditer_from_match _ _ _ _ Hm) in H.
      injection H as <- <- Hrest. apply finditer_from_nowhere in Hrest.
      exists [], x, rest. simpl. rewrite (sub_match _ _ _ Hm), (sub_nowhere _ Hrest).
      repeat split; [lia|exact Hm].
    + rewrite (finditer_from_nomatch _ _ _ Hm) in H.
      destruct (IH _ H) as (pre & x & rest & -> & -> & Hx & Hs).
      exists (c :: pre), x, rest. rewrite (sub_nomatch _ _ Hm), Hs. simpl.
      repeat split; [lia|exact Hx].
Qed.

(** A replacement longer than what it replaces: the output changes exactly
    when there is a match. *)
Hypothesis grows :
  forall x rest caps, re_match r (x ++ rest) = Some (caps, rest) ->
                      length x < length (repl caps).

Lemma sub_length s : length s <= length (sub r repl s).
Proof using nonempty grows.
  remember (length s) as n eqn:Hn. revert s Hn.
  induction n as [n IH] using lt_wf_ind. intros s ->.
  destruct s as [|c s]; [simpl; lia|].
  destruct (re_match r (c :: s)) as [[caps rest]|] eqn:Hm.
  - rewrite (sub_match _ _ _ Hm).
    pose proof (nonempty _ _ _ Hm) as Hlt.
    destruct (re_match_sound _ _ _ _ Hm) as (x & Hx & _).
    rewrite Hx in Hm. apply grows in Hm.
    pose proof (IH _ Hlt rest eq_refl) as Hr.
    rewrite Hx, !length_app. lia.
  - rewrite (sub_nomatch _ _ Hm). simpl.
    pose proof (IH (length s) ltac:(simpl; lia) s eq_refl). lia.
Qed.

Lemma sub_fixed_iff s : sub r repl s = s <-> nowhere s.
Proof using nonempty grows.
  split; [|apply sub_nowhere].
  induction s as [|c s IH]; intros H pre t Heq.
  - symmetry in Heq. apply app_eq_nil in Heq as [_ ->]. apply match_nil.
  - destruct (re_match r (c :: s)) as [[caps rest]|] eqn:Hm.
    + exfalso. rewrite (sub_match _ _ _ Hm) in H.
      destruct (re_match_sound _ _ _ _ Hm) as (x & Hx & _).
      rewrite Hx in Hm. apply grows in Hm.
      pose proof (sub_length rest) as Hr.
      apply (f_equal length) in H. rewrite Hx, !length_app in H. lia.
    + rewrite (sub_nomatch _ _ Hm) in H. injection H as H.
      destruct pre as [|c' pre]; simpl in Heq.
      * by subst t.
      * injection Heq as -> ->. by apply (IH H pre).
Qed.
End ScanFacts.

End ReFacts.

(** ** Occurrences of a fragment *)

Module OccFacts.

Lemma starts_with_app l t : starts_with l (l ++ t) = true.
Proof.
  induction l as [|c l IH]; simpl; [reflexivity|]. by rewrite N.eqb_refl, IH.
Qed.

Lemma occurrences_tail l c s : occurrences l s <= occurrences l (c :: s).
Proof. cbn [occurrences]. lia. Qed.

Lemma occurrences_suffix l x s : occurrences l s <= occurrences l (x ++ s).
Proof.
  induction x as [|c x IH]; [done|].
  etrans; [exact IH|]. apply occurrences_tail.
Qed.

Lemma occurrences_here l c s :
  starts_with l (c :: s) = true -> S (occurrences l s) <= occurrences l (c :: s).
Proof. cbn [occurrences]. intros ->. lia. Qed.

Lemma occurrences_after frag g1 y :
  frag <> [] -> S (occurrences frag y) <= occurrences frag (g1 ++ frag ++ y).
Proof.
  intros Hne. etrans; [|apply occurrences_suffix].
  pose proof (starts_with_app frag y) as Hs.
  destruct frag as [|c f]; [done|]. simpl app in *.
  etrans; [|apply (occurrences_here _ _ _ Hs)].
  apply le_n_S, occurrences_suffix.
Qed.

End OccFacts.

(** ** Facts about the two patterns *)

Ltac inv_sem :=
  repeat match goal with
  | H : sem (Cat _ _) _ _ _ |- _ => inversion H; subst; clear H
  | H : sem (Grp _ _) _ _ _ |- _ => inversion H; subst; clear H
  | H : sem (Str _) _ _ _ |- _ => inversion H; subst; clear H
  | H : sem (Star _) _ _ _ |- _ => inversion H; subst; clear H
  | H : sem (Opt _) _ _ _ |- _ => inversion H; subst; clear H
  end.

Module NoteFacts.
Import ReFacts FixNote.

(** The shape of a match: both groups and what is left. *)
Lemma note_match_inv s caps rest :
  re_match pattern s = Some (caps, rest) ->
  exists mid ws,
    caps = [(2, CREATED_AT); (1, NOTE_OPEN ++ mid ++ NOTE_TYPE ++ ws)] /\
    s = (NOTE_OPEN ++ mid ++ NOTE_TYPE ++ ws) ++ CREATED_AT ++ rest /\
    forallb not_rbrace mid = true /\ forallb isspace ws = true.
Proof.
  intros H. apply re_match_sound in H as (x & -> & H).
  unfold pattern in H. inv_sem.
  match goal with
  | Hm : forallb not_rbrace ?m = true, Hw : forallb isspace ?w = true |- _ =>
      exists m, w; split; [reflexivity|];
      split; [symmetry; apply app_assoc|split; assumption]
  end.
Qed.

Lemma note_nonempty s caps rest :
  re_match pattern s = Some (caps, rest) -> length rest < length s.
Proof.
  intros H. apply note_match_inv in H as (mid & ws & _ & -> & _).
  rewrite !length_app. simpl. lia.
Qed.

Lemma note_replace_func_groups g1 g2 :
  replace_func [(2, g2); (1, g1)] = g1 ++ INSERTED ++ g2.
Proof. reflexivity. Qed.

Lemma note_grows x rest caps :
  re_match pattern (x ++ rest) = Some (caps, rest) ->
  length x < length (replace_func caps).
Proof.
  intros H. apply note_match_inv in H as (mid & ws & -> & Hx & _).
  rewrite app_assoc in Hx. apply app_inv_tail in Hx as ->.
  rewrite note_replace_func_groups, !length_app. simpl. lia.
Qed.

End NoteFacts.

Module RepoFacts.
Import ReFacts FixRepo.

(** The shape of a match: both groups and what is left. *)
Lemma repo_match_inv s caps rest :
  re_match pattern s = Some (caps, rest) ->
  exists mid v oc ws v2,
    caps = [(2, CREATED ++ v2 ++ [COMMA]);
            (1, REPO_OPEN ++ mid ++ TAGS ++ v ++ oc ++ ws)] /\
    s = (REPO_OPEN ++ mid ++ TAGS ++ v ++ oc ++ ws)
          ++ (CREATED ++ v2 ++ [COMMA]) ++ rest /\
    forallb not_rbrace mid = true /\ forallb not_comma_nl v = true /\
    (oc = [] \/ oc = [COMMA]) /\ forallb isspace ws = true /\
    forallb not_comma_nl v2 = true.
Proof.
  intros H. apply re_match_sound in H as (x & -> & H).
  unfold pattern in H. inv_sem;
  match goal with
  | Hm : forallb not_rbrace ?m = true, Hw : forallb isspace ?w = true,
    Hv : forallb not_comma_nl ?v = true, Hv2 : forallb not_comma_nl ?v2 = true
    |- context [TAGS ++ ?v ++ ?oc ++ ?w] =>
      exists m, v, oc, w, v2; split; [reflexivity|];
      split; [symmetry; apply app_assoc|]; auto 10
  end.
Qed.

Lemma repo_nonempty s caps rest :
  re_match pattern s = Some (caps, rest) -> length rest < length s.
Proof.
  intros H. apply repo_match_inv in H as (mid & v & oc & ws & v2 & _ & -> & _).
  rewrite !length_app. simpl. lia.
Qed.

Lemma repo_replace_func_groups g1 g2 :
  replace_func [(2, g2); (1, g1)] = g1 ++ INSERTED ++ g2.
Proof. reflexivity. Qed.

Lemma repo_grows x rest caps :
  re_match pattern (x ++ rest) = Some (caps, rest) ->
  length x < length (replace_func caps).
Proof.
  intros H. apply repo_match_inv in H as (mid & v & oc & ws & v2 & -> & Hx & _).
  rewrite app_assoc in Hx. apply app_inv_tail in Hx as ->.
  rewrite repo_replace_func_groups, !length_app. simpl. lia.
Qed.

End RepoFacts.

(** ** fix_note.py: the substitution *)

Module NoteSub.
Import ReFacts FixNote.

Lemma isspace_not_n c : isspace c = true -> not_n c = true.
Proof.
  unfold not_n. destruct (N.eqb_spec c 110) as [->|]; [|reflexivity].
  vm_compute. discriminate.
Qed.

Lemma forallb_impl (p q : N -> bool) (l : text) :
  (forall c, p c = true -> q c = true) -> forallb p l = true -> forallb q l = true.
Proof.
  intros Hpq. induction l as [|c l IH]; simpl; [reflexivity|].
  intros [Hc Hl]%andb_true_iff. by rewrite (Hpq _ Hc), IH.
Qed.

End NoteSub.

(** ** Running the scripts *)

Module RunFacts.
Import ReFacts.

Lemma read_newlines_no_cr raw :
  forallb not_cr raw = true -> read_newlines raw = raw.
Proof.
  induction raw as [|c raw IH]; simpl; [reflexivity|].
  intros [Hc Hraw]%andb_true_iff. unfold not_cr in Hc.
  apply negb_true_iff in Hc. rewrite Hc. by rewrite IH.
Qed.

Lemma write_newlines_lf data : write_newlines [LF] data = data.
Proof.
  induction data as [|c data IH]; simpl; [reflexivity|].
  rewrite IH. destruct (N.eqb_spec c LF) as [->|]; reflexivity.
Qed.

Lemma since_app w w' evs : trace w' = trace w ++ evs -> since w w' = evs.
Proof. unfold since. intros ->. by rewrite drop_app_length. Qed.

Lemma note_changed_iff content :
  FixNote.new_content content = content
  <-> finditer FixNote.pattern content = [].
Proof.
  unfold FixNote.new_content, finditer.
  rewrite (sub_fixed_iff _ _ NoteFacts.note_nonempty NoteFacts.note_grows).
  symmetry. apply (finditer_from_nowhere _ NoteFacts.note_nonempty).
Qed.

Lemma repo_changed_iff content :
  FixRepo.new_content content = content
  <-> finditer FixRepo.pattern content = [].
Proof.
  unfold FixRepo.new_content, finditer.
  rewrite (sub_fixed_iff _ _ RepoFacts.repo_nonempty RepoFacts.repo_grows).
  symmetry. apply (finditer_from_nowhere _ RepoFacts.repo_nonempty).
Qed.

Lemma run_note w raw :
  files w !! FixNote.note_rs = Some raw ->
  FixNote.main w
  = Ok tt
      (World
         (<[FixNote.note_rs :=
              write_newlines (linesep w)
                (FixNote.new_content (read_newlines raw))]> (files w))
         (linesep w)
         (trace w
            ++ [EvRead FixNote.note_rs;
                EvWrite FixNote.note_rs
                  (write_newlines (linesep w)
                     (FixNote.new_content (read_newlines raw)));
                EvPrint "Fixed Note constructors"])).
Proof.
  intros H. unfold FixNote.main, mbind, M_bind, open_read. rewrite H.
  unfold open_write, print, log. simpl. by rewrite <- !app_assoc.
Qed.

Lemma run_note_missing w :
  files w !! FixNote.note_rs = None ->
  FixNote.main w = Raised (FileNotFoundError FixNote.note_rs) w.
Proof.
  intros H. unfold FixNote.main, mbind, M_bind, open_read. by rewrite H.
Qed.

Lemma run_fix_repo_unchanged w file_path raw :
  files w !! file_path = Some raw ->
  FixRepo.new_content (read_newlines raw) = read_newlines raw ->
  FixRepo.fix_repo_constructors file_path w
  = Ok tt
      (World (files w) (linesep w)
         (trace w
            ++ [EvRead file_path;
                EvPrint ("No changes needed for " +:+ file_path)])).
Proof.
  intros H Hsame.
  unfold FixRepo.fix_repo_constructors, mbind, M_bind, open_read. rewrite H.
  destruct (decide _) as [Hne|_]; [done|].
  unfold print, log. simpl. by rewrite <- !app_assoc.
Qed.

Lemma run_fix_repo_changed w file_path raw :
  files w !! file_path = Some raw ->
  FixRepo.new_content (read_newlines raw) <> read_newlines raw ->
  FixRepo.fix_repo_constructors file_path w
  = Ok tt
      (World
         (<[file_path :=
              write_newlines (linesep w)
                (FixRepo.new_content (read_newlines raw))]> (files w))
         (linesep w)
         (trace w
            ++ [EvRead file_path;
                EvWrite file_path
                  (write_newlines (linesep w)
                     (FixRepo.new_content (read_newlines raw)));
                EvPrint ("Fixed " +:+ file_path)])).
Proof.
  intros H Hdiff.
  unfold FixRepo.fix_repo_constructors, mbind, M_bind, open_read. rewrite H.
  destruct (decide _) as [_|Hsame]; [|done].
  unfold open_write, print, log. simpl. by rewrite <- !app_assoc.
Qed.

Lemma status_eq fs fs' file_path :
  fs' !! file_path = fs !! file_path ->
  FixRepo.status fs' file_path = FixRepo.status fs file_path.
Proof. unfold FixRepo.status. by intros ->. Qed.

(** One turn of the loop: one probe, one status line, and no file other
    than the candidate touched. *)
Lemma run_fix_or_report w file_path :
  exists w' evs,
    FixRepo.fix_or_report file_path w = Ok tt w' /\
    trace w' = trace w ++ evs /\
    linesep w' = linesep w /\
    printed evs = [FixRepo.status (files w) file_path] /\
    probed evs = [file_path] /\
    Forall (fun q => q = file_path) (opened evs) /\
    (forall q, q <> file_path -> files w' !! q = files w !! q).
Proof.
  unfold FixRepo.fix_or_report, mbind, M_bind, path_exists, FixRepo.status.
  destruct (files w !! file_path) as [raw|] eqn:H.
  - rewrite bool_decide_true by eauto.
    destruct (decide (FixRepo.new_content (read_newlines raw)
                      = read_newlines raw)) as [Hsame|Hdiff].
    + rewrite (run_fix_repo_unchanged _ _ raw) by done.
      rewrite (proj1 (repo_changed_iff _) Hsame).
      eexists _, _. split; [reflexivity|]. simpl.
      split; [by rewrite <- app_assoc|].
      repeat split; simpl; auto; repeat constructor.
    + rewrite (run_fix_repo_changed _ _ raw) by done.
      destruct (finditer FixRepo.pattern (read_newlines raw)) eqn:Hf.
      { by apply repo_changed_iff in Hf. }
      eexists _, _. split; [reflexivity|]. simpl.
      split; [by rewrite <- app_assoc|].
      repeat split; simpl; auto; repeat constructor.
      intros q Hq. by rewrite lookup_insert_ne.
  - rewrite bool_decide_false by (intros [? ?]; discriminate).
    eexists _, _. split; [reflexivity|]. simpl.
    split; [by rewrite <- app_assoc|].
    repeat split; simpl; auto; repeat constructor.
Qed.

(** The whole loop, for any list of distinct candidates. *)
Lemma run_for_each paths : NoDup paths -> forall w,
  exists w' evs,
    for_each paths FixRepo.fix_or_report w = Ok tt w' /\
    trace w' = trace w ++ evs /\
    linesep w' = linesep w /\
    printed evs = map (FixRepo.status (files w)) paths /\
    probed evs = paths /\
    Forall (fun q => q ∈ paths) (opened evs) /\
    (forall q, q ∉ paths -> files w' !! q = files w !! q).
Proof.
  induction 1 as [|file_path paths Hnotin Hnodup IH]; intros w.
  - exists w, []. simpl. rewrite app_nil_r. repeat split; auto.
  - destruct (run_fix_or_report w file_path)
      as (w1 & evs1 & Hrun1 & Htr1 & Hsep1 & Hpr1 & Hpb1 & Hop1 & Hfs1).
    destruct (IH w1)
      as (w2 & evs2 & Hrun2 & Htr2 & Hsep2 & Hpr2 & Hpb2 & Hop2 & Hfs2).
    exists w2, (evs1 ++ evs2).
    split. { simpl. unfold mbind, M_bind. by rewrite Hrun1. }
    split. { by rewrite Htr2, Htr1, <- app_assoc. }
    split. { congruence. }
    unfold printed, probed, opened in *. rewrite !omap_app.
    split.
    { rewrite Hpr1, Hpr2. simpl. f_equal. apply map_ext_in.
      intros q Hq. apply status_eq, Hfs1. intros ->.
      by apply Hnotin, list_elem_of_In. }
    split. { by rewrite Hpb1, Hpb2. }
    split.
    { apply Forall_app. split.
      - eapply Forall_impl; [exact Hop1|]. intros q ->. left.
      - eapply Forall_impl; [exact Hop2|]. intros q Hq. by right. }
    intros q Hq. apply not_elem_of_cons in Hq as [Hne Hq].
    by rewrite Hfs2, Hfs1.
Qed.

Lemma files_to_fix_distinct : NoDup FixRepo.files_to_fix.
Proof.
  apply NoDup_cons. split; [|apply NoDup_singleton].
  intros Hin%list_elem_of_singleton. discriminate.
Qed.

End RunFacts.

(** ** A second run of fix_note.py's substitution *)

Module HitFacts.
Import ReFacts Hits FixNote.

Lemma is_hit_intro ws rest :
  forallb isspace ws = true ->
  is_hit (NOTE_TYPE ++ ws ++ CREATED_AT ++ rest) = true.
Proof.
  intros Hws. unfold is_hit.
  assert (sem hit_pattern (NOTE_TYPE ++ ws ++ CREATED_AT) [] []) as Hsem.
  { unfold hit_pattern. eapply sem_cat; [apply sem_str|].
    eapply sem_cat; [by apply sem_star|apply sem_str]. }
  destruct (exec_complete _ _ _ _ Hsem rest
              (fun _ _ => Some tt) (fun _ => ltac:(eauto)) []) as [r Hr].
  rewrite <- (app_assoc NOTE_TYPE), <- (app_assoc ws) in Hr. by rewrite Hr.
Qed.

Lemma is_hit_inv t :
  is_hit t = true ->
  exists ws rest, t = NOTE_TYPE ++ ws ++ CREATED_AT ++ rest /\
                  forallb isspace ws = true.
Proof.
  unfold is_hit.
  destruct (exec hit_pattern t [] _) as [r|] eqn:H; [intros _|discriminate].
  apply exec_sound in H as (x & s' & c & -> & H & _).
  unfold hit_pattern in H. inv_sem.
  eexists _, s'. split; [|eassumption].
  rewrite <- (app_assoc NOTE_TYPE). f_equal. symmetry. apply app_assoc.
Qed.

Lemma is_hit_nil : is_hit [] = false.
Proof. reflexivity. Qed.

Lemma reach_hit t : is_hit t = true -> reach t = true.
Proof.
  destruct t as [|c t]; [by rewrite is_hit_nil|]. simpl. by intros ->.
Qed.

Lemma reach_skip x y :
  forallb not_rbrace x = true -> reach y = true -> reach (x ++ y) = true.
Proof.
  intros Hx Hy. induction x as [|c x IH]; [exact Hy|]. simpl in *.
  apply andb_true_iff in Hx as [-> Hx]. rewrite (IH Hx). simpl.
  apply orb_true_r.
Qed.

Lemma reach_inv t :
  reach t = true ->
  exists x y, t = x ++ y /\ forallb not_rbrace x = true /\ is_hit y = true.
Proof.
  induction t as [|c t IH]; [discriminate|]. simpl.
  intros [Hh|[Hc Hr]%andb_true_iff]%orb_true_iff.
  - by exists [], (c :: t).
  - destruct (IH Hr) as (x & y & -> & Hx & Hy).
    exists (c :: x), y. simpl. by rewrite Hc, Hx.
Qed.

Lemma has_hit_suffix x y : has_hit y = true -> has_hit (x ++ y) = true.
Proof.
  intros Hy. induction x as [|c x IH]; [exact Hy|]. simpl. rewrite IH.
  apply orb_true_r.
Qed.

Lemma reach_has_hit t : reach t = true -> has_hit t = true.
Proof.
  intros (x & y & -> & _ & Hy)%reach_inv. apply has_hit_suffix.
  destruct y as [|c y]; [by rewrite is_hit_nil in Hy|]. simpl. by rewrite Hy.
Qed.

End HitFacts.

Module GreedyFacts.
Import ReFacts Hits HitFacts FixNote.

Lemma star_none {A} cls s (k : text -> option A) :
  star cls s k = None ->
  forall z y, s = z ++ y -> forallb cls z = true -> k y = None.
Proof.
  induction s as [|c s IH]; simpl; intros H z y Heq Hz.
  - symmetry in Heq. apply app_eq_nil in Heq as [-> ->]. exact H.
  - destruct z as [|c' z]; simpl in Heq.
    + subst y. destruct (cls c); [|exact H].
      destruct (star cls s k); [discriminate|exact H].
    + injection Heq as <- ->. simpl in Hz.
      apply andb_true_iff in Hz as [Hc Hz]. rewrite Hc in H.
      destruct (star cls (z ++ y) k) eqn:Hs; [discriminate|].
      by apply (IH eq_refl z y).
Qed.

(** Greediness, read backwards: the repetition stopped at the last place
    from which the rest of the pattern succeeds. *)
Lemma star_greedy {A} cls s (k : text -> option A) a :
  star cls s k = Some a ->
  exists x y, s = x ++ y /\ forallb cls x = true /\ k y = Some a /\
    forall z y', y = z ++ y' -> z <> [] -> forallb cls z = true -> k y' = None.
Proof.
  induction s as [|c s IH]; simpl; intros H.
  - exists [], []. repeat split; [exact H|].
    intros z y' Heq Hz. symmetry in Heq. by apply app_eq_nil in Heq as [-> _].
  - destruct (cls c) eqn:Hc.
    + destruct (star cls s k) as [b|] eqn:Hs; simpl in H.
      * injection H as ->. destruct (IH eq_refl) as (x & y & -> & Hx & Hk & Hmax).
        exists (c :: x), y. simpl. rewrite Hc, Hx. auto.
      * exists [], (c :: s). repeat split; [exact H|].
        intros [|c' z] y' Heq Hz Hcls; [done|]. simpl in Heq, Hcls.
        injection Heq as <- ->. apply andb_true_iff in Hcls as [_ Hcls].
        by apply (star_none _ _ _ Hs z y').
    + exists [], (c :: s). repeat split; [exact H|].
      intros [|c' z] y' Heq Hz Hcls; [done|]. simpl in Heq, Hcls.
      injection Heq as <- ->. rewrite Hc in Hcls. discriminate.
Qed.

Lemma match_reach t caps rest :
  re_match pattern t = Some (caps, rest) ->
  exists t', t = NOTE_OPEN ++ t' /\ reach t' = true.
Proof.
  intros (mid & ws & _ & -> & Hmid & Hws)%NoteFacts.note_match_inv.
  exists (mid ++ NOTE_TYPE ++ ws ++ CREATED_AT ++ rest). split.
  - rewrite <- (app_assoc NOTE_OPEN), <- (app_assoc mid),
      <- (app_assoc NOTE_TYPE). reflexivity.
  - apply reach_skip; [exact Hmid|]. by apply reach_hit, is_hit_intro.
Qed.

Lemma reach_match t' :
  reach t' = true -> is_Some (re_match pattern (NOTE_OPEN ++ t')).
Proof.
  intros (x & y & -> & Hx & (ws & rest & -> & Hws)%is_hit_inv)%reach_inv.
  assert (exists caps,
            sem pattern ((NOTE_OPEN ++ x ++ NOTE_TYPE ++ ws) ++ CREATED_AT)
              [] caps) as [caps Hsem].
  { eexists. unfold pattern. eapply sem_cat.
    - apply sem_grp. eapply sem_cat; [apply sem_str|].
      eapply sem_cat; [by apply sem_star|].
      eapply sem_cat; [apply sem_str|by apply sem_star].
    - apply sem_grp, sem_str. }
  destruct (exec_complete _ _ _ _ Hsem rest
              (fun s' caps => Some (caps, s')) (fun _ => ltac:(eauto)) [])
    as [r Hr].
  unfold re_match. exists r. rewrite <- Hr. f_equal.
  rewrite <- (app_assoc _ CREATED_AT rest), <- (app_assoc NOTE_OPEN),
    <- (app_assoc x), <- (app_assoc NOTE_TYPE). reflexivity.
Qed.

(** After a match no further [note_type,] assignment can be reached
    without crossing a closing brace. *)
Lemma match_last t caps rest :
  re_match pattern t = Some (caps, rest) -> reach rest = false.
Proof.
  intros H. destruct (reach rest) eqn:Hreach; [exfalso|reflexivity].
  unfold re_match, pattern in H. cbn [exec] in H.
  apply lit_inv in H as (s1 & -> & H).
  apply star_greedy in H as (x & y & -> & Hx & Hk & Hmax).
  apply lit_inv in Hk as (s3 & -> & Hk).
  apply star_inv in Hk as (ws & s4 & -> & Hws & Hk).
  apply lit_inv in Hk as (s5 & -> & Hk). injection Hk as _ ->.
  apply reach_inv in Hreach
    as (x2 & y2 & -> & Hx2 & (ws2 & r2 & -> & Hws2)%is_hit_inv).
  assert (forallb not_rbrace (NOTE_TYPE ++ ws ++ CREATED_AT ++ x2) = true)
    as Hcls.
  { rewrite !forallb_app, Hx2.
    rewrite (NoteSub.forallb_impl isspace not_rbrace ws);
      [reflexivity| |exact Hws].
    intros c Hc. unfold not_rbrace.
    destruct (N.eqb_spec c RBRACE) as [->|]; [discriminate Hc|reflexivity]. }
  specialize (Hmax (NOTE_TYPE ++ ws ++ CREATED_AT ++ x2)
                (NOTE_TYPE ++ ws2 ++ CREATED_AT ++ r2)).
  rewrite lit_app in Hmax.
  assert (NOTE_TYPE ++ ws ++ CREATED_AT ++ x2 ++ NOTE_TYPE ++ ws2
            ++ CREATED_AT ++ r2
          = (NOTE_TYPE ++ ws ++ CREATED_AT ++ x2) ++ NOTE_TYPE ++ ws2
              ++ CREATED_AT ++ r2) as Heq.
  { rewrite <- (app_assoc NOTE_TYPE), <- (app_assoc ws),
      <- (app_assoc CREATED_AT). reflexivity. }
  specialize (Hmax Heq ltac:(discriminate) Hcls).
  apply star_none with (z := ws2) (y := CREATED_AT ++ r2) in Hmax;
    [|reflexivity|exact Hws2].
  rewrite lit_app in Hmax. discriminate.
Qed.

End GreedyFacts.

Module InsertFacts.
Import ReFacts Hits HitFacts GreedyFacts FixNote.

Lemma unique_split (q : N -> bool) (a : N) (u v x l : text) :
  q a = false -> forallb q u = true -> forallb q v = true ->
  u ++ a :: v = x ++ a :: l -> x = u /\ l = v.
Proof.
  intros Ha Hu Hv. revert x. induction u as [|b u IH]; intros x Heq.
  - destruct x as [|a' x]; simpl in Heq.
    + by injection Heq as ->.
    + injection Heq as <- ->. rewrite forallb_app in Hv. simpl in Hv.
      rewrite Ha in Hv. simpl in Hv. by rewrite andb_false_r in Hv.
  - simpl in Hu. apply andb_true_iff in Hu as [Hb Hu].
    destruct x as [|b' x]; simpl in Heq.
    + injection Heq as -> _. congruence.
    + injection Heq as <- Heq. destruct (IH Hu x Heq) as [-> ->]. done.
Qed.

(** A [note_type,] assignment that starts before the inserted text ends
    before it. *)
Lemma hit_before_inserted x y :
  is_hit (x ++ INSERTED ++ y) = true -> forall w, is_hit (x ++ w) = true.
Proof.
  intros (ws & r & Heq & Hws)%is_hit_inv w.
  assert (forall t, ((NOTE_TYPE ++ ws) ++ CREATED_AT) ++ t
                    = NOTE_TYPE ++ ws ++ CREATED_AT ++ t) as E.
  { intros t. rewrite <- (app_assoc (NOTE_TYPE ++ ws)), <- (app_assoc NOTE_TYPE).
    reflexivity. }
  rewrite <- E in Heq.
  apply app_eq_app in Heq as [l [[-> Hr]|[Hx Hl]]].
  - rewrite <- (app_assoc _ l w), E. by apply is_hit_intro.
  - destruct l as [|c l].
    + rewrite app_nil_r in Hx. rewrite <- Hx, E. by apply is_hit_intro.
    + exfalso. change INSERTED with (112%N :: 114%N :: drop 2 INSERTED) in Hl.
      simpl in Hl. injection Hl as <- Hl.
      change NOTE_TYPE with (take 7 NOTE_TYPE ++ 112%N :: drop 8 NOTE_TYPE)
        in Hx.
      rewrite <- !(app_assoc (take 7 NOTE_TYPE)) in Hx. simpl in Hx.
      apply (unique_split not_p 112%N (take 7 NOTE_TYPE)) in Hx
        as [_ ->]; [discriminate Hl|reflexivity|reflexivity|].
      simpl. rewrite forallb_app.
      rewrite (NoteSub.forallb_impl isspace not_p ws); [reflexivity| |exact Hws].
      intros c Hc. unfold not_p.
      destruct (N.eqb_spec c 112) as [->|]; [discriminate Hc|reflexivity].
Qed.

Lemma reach_before_inserted a y :
  reach (a ++ INSERTED ++ y) = true ->
  (forall w, reach (a ++ w) = true) \/ reach (INSERTED ++ y) = true.
Proof.
  induction a as [|c a IH]; [by right|].
  cbn [app reach]. intros [Hh|[Hc Hr]%andb_true_iff]%orb_true_iff.
  - left. intros w. cbn [app reach].
    pose proof (hit_before_inserted (c :: a) y Hh w) as Hw.
    cbn [app] in Hw. by rewrite Hw.
  - destruct (IH Hr) as [Hl|Hr']; [left|by right].
    intros w. cbn [app reach]. rewrite Hc, (Hl w). apply orb_true_r.
Qed.

(** The inserted text and the assignment hold no [note_type,] and no
    closing brace. *)
Lemma reach_inserted z : reach (INSERTED ++ CREATED_AT ++ z) = reach z.
Proof. reflexivity. Qed.

End InsertFacts.

Module NoteTwice.
Import ReFacts Hits HitFacts GreedyFacts InsertFacts FixNote.

(** The first insertion of a run, if there is one. *)
Lemma first_insertion s :
  new_content s = s \/
  exists a rest,
    s = a ++ CREATED_AT ++ rest /\
    new_content s = a ++ INSERTED ++ CREATED_AT ++ new_content rest /\
    reach rest = false /\ length rest < length s.
Proof.
  unfold new_content. induction s as [|c s IH].
  - left. apply (sub_nil _ _ NoteFacts.note_nonempty).
  - destruct (re_match pattern (c :: s)) as [[caps rest]|] eqn:Hm.
    + right. rewrite (sub_match _ _ NoteFacts.note_nonempty _ _ _ Hm).
      pose proof (match_last _ _ _ Hm) as Hlast.
      pose proof (NoteFacts.note_nonempty _ _ _ Hm) as Hlen.
      destruct (NoteFacts.note_match_inv _ _ _ Hm)
        as (mid & ws & -> & Hs & _).
      rewrite Hs in Hlen |- *. eexists _, rest.
      split; [reflexivity|]. rewrite NoteFacts.note_replace_func_groups.
      split; [|split; [exact Hlast|exact Hlen]].
      rewrite <- (app_assoc _ (INSERTED ++ CREATED_AT)).
      rewrite <- (app_assoc INSERTED). reflexivity.
    + rewrite (sub_nomatch _ _ _ _ Hm).
      destruct IH as [->|(a & rest & -> & -> & Hlast & Hlen)]; [by left|].
      right. exists (c :: a), rest. repeat split; [exact Hlast|].
      cbn [app length]. lia.
Qed.

(** Insertions do not bring a [note_type,] assignment within reach. *)
Lemma reach_new_content t : reach t = false -> reach (new_content t) = false.
Proof.
  remember (length t) as n eqn:Hn. revert t Hn.
  induction n as [n IH] using lt_wf_ind. intros t -> Ht.
  destruct (first_insertion t) as [->|(a & rest & -> & -> & Hlast & Hlen)];
    [exact Ht|].
  destruct (reach (a ++ INSERTED ++ CREATED_AT ++ new_content rest)) eqn:Hr;
    [exfalso|reflexivity].
  apply reach_before_inserted in Hr as [Hr|Hr].
  - rewrite Hr in Ht. discriminate.
  - rewrite reach_inserted, (IH _ Hlen rest eq_refl Hlast) in Hr. discriminate.
Qed.

Lemma nowhere_cons r c s :
  re_match r (c :: s) = None -> nowhere r s -> nowhere r (c :: s).
Proof.
  intros Hc Hs [|c' pre] t Heq; simpl in Heq.
  - by subst t.
  - injection Heq as -> ->. by apply (Hs pre).
Qed.

(** A text that starts with the opener after some inserted text was put in
    started with it before. *)
Lemma open_before_inserted a y t :
  a ++ INSERTED ++ y = NOTE_OPEN ++ t ->
  exists a', a = NOTE_OPEN ++ a' /\ t = a' ++ INSERTED ++ y.
Proof.
  intros Heq. apply app_eq_app in Heq as [l [[-> ->]|[Ho Hl]]].
  - by exists l.
  - destruct l as [|c l].
    + exists []. rewrite app_nil_r in Ho. subst a. simpl in Hl. by subst t.
    + exfalso. change INSERTED with (112%N :: tail INSERTED) in Hl.
      simpl in Hl. injection Hl as <- _.
      assert (forallb not_p NOTE_OPEN = true) as Hp by reflexivity.
      rewrite Ho, forallb_app in Hp. simpl in Hp.
      by rewrite andb_false_r in Hp.
Qed.

Lemma clean_nowhere s : forall pos,
  clean (finditer_from pattern pos 0 s) = true ->
  nowhere pattern (new_content s).
Proof.
  remember (length s) as n eqn:Hn. revert s Hn.
  induction n as [n IH] using lt_wf_ind. intros s -> pos Hclean.
  destruct s as [|c s].
  { unfold new_content. rewrite (sub_nil _ _ NoteFacts.note_nonempty).
    intros pre t Heq. symmetry in Heq. apply app_eq_nil in Heq as [_ ->].
    apply (match_nil _ NoteFacts.note_nonempty). }
  destruct (re_match pattern (c :: s)) as [[caps rest]|] eqn:Hm.
  - (* a match here *)
    pose proof (match_last _ _ _ Hm) as Hlast.
    pose proof (NoteFacts.note_nonempty _ _ _ Hm) as Hlen.
    destruct (NoteFacts.note_match_inv _ _ _ Hm) as (mid & ws & -> & Hs & _).
    rewrite Hs in Hm, Hclean. rewrite (app_assoc _ CREATED_AT) in Hm, Hclean.
    rewrite (finditer_from_match _ NoteFacts.note_nonempty _ _ _ _ Hm) in Hclean.
    cbn [clean forallb] in Hclean.
    apply andb_true_iff in Hclean as [Hg1 Hrest].
    apply negb_true_iff in Hg1.
    change (has_hit (NOTE_OPEN ++ mid ++ NOTE_TYPE ++ ws) = false) in Hg1.
    specialize (IH _ Hlen rest eq_refl _ Hrest).
    unfold new_content in *. rewrite Hs, (app_assoc _ CREATED_AT).
    rewrite (sub_match _ _ NoteFacts.note_nonempty _ _ _ Hm).
    rewrite NoteFacts.note_replace_func_groups.
    set (g1 := NOTE_OPEN ++ mid ++ NOTE_TYPE ++ ws) in *.
    intros pre t Heq.
    apply app_eq_app in Heq as [l [[Hg Ht]|[-> Hsub]]];
      [|by apply (IH l t)].
    rewrite Ht. clear Ht.
    apply app_eq_app in Hg as [m [[Hg Hl]|[-> Hic]]].
    + (* it starts inside group 1 *)
      rewrite Hl. clear Hl.
      destruct (re_match pattern ((m ++ INSERTED ++ CREATED_AT)
                                    ++ sub pattern replace_func rest))
        as [[caps' rest']|] eqn:Hm'; [exfalso|reflexivity].
      apply match_reach in Hm' as (t' & Heq' & Hreach).
      rewrite <- (app_assoc m), <- (app_assoc INSERTED) in Heq'.
      apply open_before_inserted in Heq' as (m' & -> & ->).
      apply reach_before_inserted in Hreach as [Hr|Hr].
      * specialize (Hr []). rewrite app_nil_r in Hr.
        apply reach_has_hit in Hr.
        assert (has_hit g1 = true) as Hh
          by (rewrite Hg; apply has_hit_suffix, has_hit_suffix, Hr).
        congruence.
      * rewrite reach_inserted in Hr.
        pose proof (reach_new_content rest Hlast) as Hn.
        unfold new_content in Hn. rewrite Hn in Hr. discriminate.
    + (* it starts inside the inserted text or the assignment *)
      destruct l as [|x l]; [by apply (IH [] _)|].
      apply (lit_head_fail 78%N); [reflexivity|]. simpl. intros [= ->].
      assert (forallb (fun c => negb (c =? 78)%N) (INSERTED ++ CREATED_AT)
              = true) as Hno by reflexivity.
      rewrite Hic, forallb_app in Hno. simpl in Hno.
      by rewrite andb_false_r in Hno.
  - (* no match here *)
    rewrite (finditer_from_nomatch _ _ _ _ Hm) in Hclean.
    specialize (IH (length s) ltac:(simpl; lia) s eq_refl _ Hclean).
    unfold new_content in *. rewrite (sub_nomatch _ _ _ _ Hm).
    apply nowhere_cons; [|exact IH].
    destruct (re_match pattern (c :: sub pattern replace_func s))
      as [[caps' rest']|] eqn:Hm'; [exfalso|reflexivity].
    apply match_reach in Hm' as (t' & Heq' & Hreach).
    destruct (first_insertion s) as [Hsame|(a & rest & -> & Hsub & Hlast & _)];
      unfold new_content in *.
    + rewrite Hsame in Heq'. rewrite Heq' in Hm.
      destruct (reach_match _ Hreach) as [r Hr]. congruence.
    + rewrite Hsub in Heq'.
      apply (open_before_inserted (c :: a)) in Heq' as (a' & Ha & ->).
      apply reach_before_inserted in Hreach as [Hr|Hr].
      * destruct (reach_match _ (Hr (CREATED_AT ++ rest))) as [r Hr'].
        rewrite app_assoc, <- Ha, <- app_comm_cons in Hr'. congruence.
      * rewrite reach_inserted in Hr.
        pose proof (reach_new_content rest Hlast) as Hn.
        unfold new_content in Hn. rewrite Hn in Hr. discriminate.
Qed.

End NoteTwice.

Module NoteDirty.
Import ReFacts Hits HitFacts GreedyFacts InsertFacts FixNote NoteTwice.

Lemma is_hit_app y w : is_hit y = true -> is_hit (y ++ w) = true.
Proof.
  intros (ws & r & -> & Hws)%is_hit_inv.
  rewrite <- (app_assoc NOTE_TYPE), <- (app_assoc ws),
    <- (app_assoc CREATED_AT).
  by apply is_hit_intro.
Qed.

Lemma has_hit_inv t :
  has_hit t = true -> exists x y, t = x ++ y /\ is_hit y = true.
Proof.
  induction t as [|c t IH]; [discriminate|]. simpl.
  intros [Hh|Hr]%orb_true_iff.
  - by exists [], (c :: t).
  - destruct (IH Hr) as (x & y & -> & Hy). by exists (c :: x), y.
Qed.

Lemma isspace_not_rbrace c : isspace c = true -> not_rbrace c = true.
Proof.
  intros Hc. unfold not_rbrace. destruct (c =? RBRACE)%N eqn:E; [|done].
  apply N.eqb_eq in E. subst c. discriminate.
Qed.

(** A further [note_type,] assignment inside group 1 is matched as soon as
    something follows group 1. *)
Lemma hit_in_group1 mid ws w :
  forallb not_rbrace mid = true -> forallb isspace ws = true ->
  has_hit (NOTE_OPEN ++ mid ++ NOTE_TYPE ++ ws) = true ->
  is_Some (re_match pattern ((NOTE_OPEN ++ mid ++ NOTE_TYPE ++ ws) ++ w)).
Proof.
  intros Hmid Hws Hh.
  change (has_hit (mid ++ NOTE_TYPE ++ ws) = true) in Hh.
  apply has_hit_inv in Hh as (x & y & Heq & Hy).
  assert (forallb not_rbrace (x ++ y) = true) as Hx.
  { rewrite <- Heq, !forallb_app, Hmid. simpl.
    apply (NoteSub.forallb_impl _ _ _ isspace_not_rbrace), Hws. }
  rewrite forallb_app in Hx. apply andb_true_iff in Hx as [Hx _].
  rewrite <- (app_assoc NOTE_OPEN), Heq, <- (app_assoc x).
  apply reach_match, reach_skip; [exact Hx|].
  by apply reach_hit, is_hit_app.
Qed.

(** If group 1 of some match holds a further assignment, the output of the
    run has a match. *)
Lemma dirty_somewhere s : forall pos,
  clean (finditer_from pattern pos 0 s) = false ->
  exists pre t, new_content s = pre ++ t /\ is_Some (re_match pattern t).
Proof.
  remember (length s) as n eqn:Hn. revert s Hn.
  induction n as [n IH] using lt_wf_ind. intros s -> pos Hdirty.
  destruct s as [|c s].
  { by rewrite (finditer_from_nil _ NoteFacts.note_nonempty) in Hdirty. }
  destruct (re_match pattern (c :: s)) as [[caps rest]|] eqn:Hm.
  - pose proof (NoteFacts.note_nonempty _ _ _ Hm) as Hlen.
    destruct (NoteFacts.note_match_inv _ _ _ Hm)
      as (mid & ws & -> & Hs & Hmid & Hws).
    unfold new_content.
    rewrite (sub_match _ _ NoteFacts.note_nonempty _ _ _ Hm).
    rewrite NoteFacts.note_replace_func_groups.
    rewrite Hs in Hm, Hdirty. rewrite (app_assoc _ CREATED_AT) in Hm, Hdirty.
    rewrite (finditer_from_match _ NoteFacts.note_nonempty _ _ _ _ Hm)
      in Hdirty.
    cbn [clean forallb] in Hdirty.
    apply andb_false_iff in Hdirty as [Hg1|Hrest].
    + apply negb_false_iff in Hg1.
      change (has_hit (NOTE_OPEN ++ mid ++ NOTE_TYPE ++ ws) = true) in Hg1.
      exists [], ((NOTE_OPEN ++ mid ++ NOTE_TYPE ++ ws)
                    ++ (INSERTED ++ CREATED_AT)
                    ++ sub pattern replace_func rest).
      split; [exact (eq_sym (app_assoc _ (INSERTED ++ CREATED_AT) _))|].
      by apply hit_in_group1.
    + destruct (IH _ Hlen rest eq_refl _ Hrest) as (pre & t & Hsub & Ht).
      unfold new_content in Hsub. rewrite Hsub.
      exists (((NOTE_OPEN ++ mid ++ NOTE_TYPE ++ ws)
                 ++ INSERTED ++ CREATED_AT) ++ pre), t.
      split; [apply app_assoc|exact Ht].
  - rewrite (finditer_from_nomatch _ _ _ _ Hm) in Hdirty.
    destruct (IH (length s) ltac:(simpl; lia) s eq_refl _ Hdirty)
      as (pre & t & Hsub & Ht).
    unfold new_content in *. rewrite (sub_nomatch _ _ _ _ Hm), Hsub.
    by exists (c :: pre), t.
Qed.

End NoteDirty.

(** ** Which assignment a match of the Note pattern ends in *)

Module LastHit.
Import ReFacts Hits HitFacts GreedyFacts FixNote.

(** Runs of whitespace before the same non-space character are equal. *)
Lemma space_run_inj (c : N) (ws ws' t t' : text) :
  isspace c = false ->
  forallb isspace ws = true -> forallb isspace ws' = true ->
  ws ++ c :: t = ws' ++ c :: t' -> ws = ws' /\ t = t'.
Proof.
  intros Hc. revert ws'.
  induction ws as [|a ws IH]; intros [|a' ws'] Hws Hws' Heq; simpl in *.
  - by injection Heq as ->.
  - injection Heq as -> _. rewrite Hc in Hws'. discriminate.
  - injection Heq as -> _. rewrite Hc in Hws. discriminate.
  - injection Heq as <- Heq.
    apply andb_true_iff in Hws as [_ Hws].
    apply andb_true_iff in Hws' as [_ Hws'].
    by destruct (IH ws' Hws Hws' Heq) as [-> ->].
Qed.

(** Of two assignments in one text, the one with nothing more in reach
    after it does not start first. *)
Lemma hit_order mid ws rest mid' ws' rest' :
  forallb not_rbrace mid' = true ->
  forallb isspace ws = true -> forallb isspace ws' = true ->
  reach rest = false ->
  mid ++ NOTE_TYPE ++ ws ++ CREATED_AT ++ rest
  = mid' ++ NOTE_TYPE ++ ws' ++ CREATED_AT ++ rest' ->
  length mid' <= length mid.
Proof.
  intros Hmid' Hws Hws' Hrest Heq.
  destruct (le_lt_dec (length mid') (length mid)) as [|Hlt]; [done|exfalso].
  apply app_eq_app in Heq as [l [[-> _]|[-> Heq]]].
  { rewrite length_app in Hlt. lia. }
  rewrite forallb_app in Hmid'. apply andb_true_iff in Hmid' as [_ Hl].
  assert (is_hit (NOTE_TYPE ++ ws' ++ CREATED_AT ++ rest') = true) as Hhit
    by by apply is_hit_intro.
  assert (NOTE_TYPE ++ ws ++ CREATED_AT ++ rest
          = (NOTE_TYPE ++ ws ++ CREATED_AT) ++ rest) as E.
  { rewrite <- (app_assoc NOTE_TYPE), <- (app_assoc ws). reflexivity. }
  rewrite E in Heq. clear E.
  apply app_eq_app in Heq as [l2 [[Hfirst Hsecond]|[-> ->]]].
  - (* the second would start inside the first *)
    destruct l as [|c l]; [rewrite length_app in Hlt; simpl in Hlt; lia|].
    assert (exists b, forallb not_n b = true /\
              NOTE_TYPE ++ ws ++ CREATED_AT = 110%N :: b) as (b & Hn & E).
    { exists (tail NOTE_TYPE ++ ws ++ CREATED_AT). split; [|reflexivity].
      rewrite !forallb_app,
        (NoteSub.forallb_impl _ _ _ NoteSub.isspace_not_n Hws).
      reflexivity. }
    rewrite E in Hfirst. clear E.
    rewrite <- app_comm_cons in Hfirst. injection Hfirst as _ ->.
    rewrite forallb_app in Hn. apply andb_true_iff in Hn as [_ Hn].
    destruct l2 as [|d l2].
    + change ([] ++ rest) with rest in Hsecond.
      rewrite <- Hsecond, (reach_hit _ Hhit) in Hrest.
      discriminate.
    + assert (exists b', NOTE_TYPE ++ ws' ++ CREATED_AT ++ rest' = 110%N :: b')
        as [b' E] by (eexists; reflexivity).
      rewrite E in Hsecond. clear E.
      rewrite <- app_comm_cons in Hsecond. injection Hsecond as <- _.
      discriminate Hn.
  - (* the second starts after the first: it was in reach *)
    rewrite forallb_app in Hl. apply andb_true_iff in Hl as [_ Hl2].
    rewrite (reach_skip _ _ Hl2 (reach_hit _ Hhit)) in Hrest. discriminate.
Qed.

Lemma last_hit_unique mid ws rest mid' ws' rest' :
  forallb not_rbrace mid = true -> forallb not_rbrace mid' = true ->
  forallb isspace ws = true -> forallb isspace ws' = true ->
  reach rest = false -> reach rest' = false ->
  mid ++ NOTE_TYPE ++ ws ++ CREATED_AT ++ rest
  = mid' ++ NOTE_TYPE ++ ws' ++ CREATED_AT ++ rest' ->
  mid = mid' /\ ws = ws' /\ rest = rest'.
Proof.
  intros Hmid Hmid' Hws Hws' Hrest Hrest' Heq.
  pose proof (hit_order _ _ _ _ _ _ Hmid' Hws Hws' Hrest Heq) as H1.
  pose proof (hit_order _ _ _ _ _ _ Hmid Hws' Hws Hrest' (eq_sym Heq)) as H2.
  apply app_inj_1 in Heq as [-> Heq]; [|lia].
  apply app_inv_head in Heq.
  change (CREATED_AT ++ rest) with (99%N :: tail CREATED_AT ++ rest) in Heq.
  change (CREATED_AT ++ rest') with (99%N :: tail CREATED_AT ++ rest') in Heq.
  apply space_run_inj in Heq as [-> Heq]; [|reflexivity|exact Hws|exact Hws'].
  apply app_inv_head in Heq. done.
Qed.

(** The match at the start of a text, by what is in reach after it. *)
Lemma match_exact mid ws rest :
  forallb not_rbrace mid = true -> forallb isspace ws = true ->
  reach rest = false ->
  re_match pattern
    ((NOTE_OPEN ++ mid ++ NOTE_TYPE ++ ws) ++ CREATED_AT ++ rest)
  = Some ([(2, CREATED_AT); (1, NOTE_OPEN ++ mid ++ NOTE_TYPE ++ ws)], rest).
Proof.
  intros Hmid Hws Hrest.
  assert ((NOTE_OPEN ++ mid ++ NOTE_TYPE ++ ws) ++ CREATED_AT ++ rest
          = NOTE_OPEN ++ mid ++ NOTE_TYPE ++ ws ++ CREATED_AT ++ rest) as E.
  { rewrite <- (app_assoc NOTE_OPEN), <- (app_assoc mid),
      <- (app_assoc NOTE_TYPE). reflexivity. }
  rewrite E.
  destruct (reach_match (mid ++ NOTE_TYPE ++ ws ++ CREATED_AT ++ rest))
    as [[caps' rest'] Hm].
  { apply reach_skip; [exact Hmid|]. by apply reach_hit, is_hit_intro. }
  rewrite Hm.
  pose proof (match_last _ _ _ Hm) as Hrest'.
  destruct (NoteFacts.note_match_inv _ _ _ Hm)
    as (mid' & ws' & -> & Hs & Hmid' & Hws').
  rewrite <- (app_assoc NOTE_OPEN), <- (app_assoc mid'),
    <- (app_assoc NOTE_TYPE) in Hs.
  apply app_inv_head in Hs.
  destruct (last_hit_unique _ _ _ _ _ _
              Hmid Hmid' Hws Hws' Hrest Hrest' Hs) as (-> & -> & ->).
  reflexivity.
Qed.

(** [reach], spelled out. *)
Lemma reach_false_iff rest :
  reach rest = false
  <-> forall x ws r,
        forallb not_rbrace x = true -> forallb isspace ws = true ->
        rest <> x ++ NOTE_TYPE ++ ws ++ CREATED_AT ++ r.
Proof.
  split.
  - intros Hrest x ws r Hx Hws ->.
    rewrite (reach_skip _ _ Hx (reach_hit _ (is_hit_intro ws r Hws))) in Hrest.
    discriminate.
  - intros Hno. destruct (reach rest) eqn:Hr; [exfalso|reflexivity].
    apply reach_inv in Hr
      as (x & y & -> & Hx & (ws & r & -> & Hws)%is_hit_inv).
    by apply (Hno x ws r).
Qed.

End LastHit.

(** ** A second run of fix_repo.py's substitution *)

Module RepoHitFacts.
Import ReFacts RepoHits FixRepo.

Lemma opt_some {A} c x s (k : text -> option A) :
  x = [] \/ x = [c] -> is_Some (k s) -> is_Some (opt c (x ++ s) k).
Proof.
  intros [-> | ->] [a Ha]; cbn [app]; unfold opt.
  - destruct s as [|d s]; [by rewrite Ha|].
    destruct (d =? c)%N; [|by rewrite Ha].
    destruct (k s); simpl; [done|by rewrite Ha].
  - rewrite N.eqb_refl, Ha. done.
Qed.

Lemma is_pair_intro v oc ws v2 rest :
  forallb not_comma_nl v = true -> oc = [] \/ oc = [COMMA] ->
  forallb isspace ws = true -> forallb not_comma_nl v2 = true ->
  is_pair (TAGS ++ v ++ oc ++ ws ++ CREATED ++ v2 ++ [COMMA] ++ rest) = true.
Proof.
  intros Hv Hoc Hws Hv2. unfold is_pair.
  assert (sem pair_pattern
            ((TAGS ++ v ++ oc ++ ws) ++ CREATED ++ v2 ++ [COMMA]) [] [])
    as Hsem.
  { unfold pair_pattern, lead, assignment. eapply sem_cat.
    - eapply sem_cat; [apply sem_str|].
      eapply sem_cat; [by apply sem_star|].
      eapply sem_cat; [destruct Hoc as [-> | ->]; constructor|].
      by apply sem_star.
    - eapply sem_cat; [apply sem_str|].
      eapply sem_cat; [by apply sem_star|apply sem_str]. }
  destruct (exec_complete _ _ _ _ Hsem rest
              (fun _ _ => Some tt) (fun _ => ltac:(eauto)) []) as [r Hr].
  rewrite <- (app_assoc _ _ rest), <- (app_assoc CREATED), <- (app_assoc v2),
    <- (app_assoc TAGS), <- (app_assoc v), <- (app_assoc oc) in Hr.
  by rewrite Hr.
Qed.

Lemma is_pair_inv t :
  is_pair t = true ->
  exists v oc ws v2 rest,
    t = TAGS ++ v ++ oc ++ ws ++ CREATED ++ v2 ++ [COMMA] ++ rest /\
    forallb not_comma_nl v = true /\ (oc = [] \/ oc = [COMMA]) /\
    forallb isspace ws = true /\ forallb not_comma_nl v2 = true.
Proof.
  unfold is_pair.
  destruct (exec pair_pattern t [] _) as [r|] eqn:H; [intros _|discriminate].
  apply exec_sound in H as (x & s' & c & -> & H & _).
  unfold pair_pattern, lead, assignment in H. inv_sem.
  - match goal with
    | Hv : forallb not_comma_nl ?v = true, Hw : forallb isspace ?w = true,
      Hv2 : forallb not_comma_nl ?v2 = true |- _ =>
        exists v, [], w, v2, s'; split; [|auto]
    end.
    rewrite <- !app_assoc. reflexivity.
  - match goal with
    | Hv : forallb not_comma_nl ?v = true, Hw : forallb isspace ?w = true,
      Hv2 : forallb not_comma_nl ?v2 = true |- _ =>
        exists v, [COMMA], w, v2, s'; split; [|auto]
    end.
    rewrite <- !app_assoc. reflexivity.
Qed.

Lemma is_pair_nil : is_pair [] = false.
Proof. reflexivity. Qed.

Lemma is_pair_app y w : is_pair y = true -> is_pair (y ++ w) = true.
Proof.
  intros (v & oc & ws & v2 & r & -> & Hv & Hoc & Hws & Hv2)%is_pair_inv.
  rewrite <- (app_assoc TAGS), <- (app_assoc v), <- (app_assoc oc),
    <- (app_assoc ws), <- (app_assoc CREATED), <- (app_assoc v2),
    <- (app_assoc [COMMA]).
  by apply is_pair_intro.
Qed.

Lemma reach_pair_hit t : is_pair t = true -> reach_pair t = true.
Proof.
  destruct t as [|c t]; [by rewrite is_pair_nil|]. simpl. by intros ->.
Qed.

Lemma reach_pair_skip x y :
  forallb not_rbrace x = true -> reach_pair y = true ->
  reach_pair (x ++ y) = true.
Proof.
  intros Hx Hy. induction x as [|c x IH]; [exact Hy|]. simpl in *.
  apply andb_true_iff in Hx as [-> Hx]. rewrite (IH Hx). simpl.
  apply orb_true_r.
Qed.

Lemma reach_pair_inv t :
  reach_pair t = true ->
  exists x y, t = x ++ y /\ forallb not_rbrace x = true /\ is_pair y = true.
Proof.
  induction t as [|c t IH]; [discriminate|]. simpl.
  intros [Hh|[Hc Hr]%andb_true_iff]%orb_true_iff.
  - by exists [], (c :: t).
  - destruct (IH Hr) as (x & y & -> & Hx & Hy).
    exists (c :: x), y. simpl. by rewrite Hc, Hx.
Qed.

Lemma reach_pair_app l w : reach_pair l = true -> reach_pair (l ++ w) = true.
Proof.
  intros (x & y & -> & Hx & Hy)%reach_pair_inv. rewrite <- (app_assoc x).
  apply reach_pair_skip; [exact Hx|]. by apply reach_pair_hit, is_pair_app.
Qed.

(** The pair is reached inside [u], or behind it. *)
Lemma reach_pair_split u w :
  reach_pair (u ++ w) = true ->
  (exists x y, u = x ++ y /\ forallb not_rbrace x = true /\
               is_pair (y ++ w) = true) \/
  (forallb not_rbrace u = true /\ reach_pair w = true).
Proof.
  induction u as [|c u IH]; [by right|]. cbn [app reach_pair].
  intros [Hh|[Hc Hr]%andb_true_iff]%orb_true_iff.
  - left. by exists [], (c :: u).
  - destruct (IH Hr) as [(x & y & -> & Hx & Hy)|[Hu Hw]].
    + left. exists (c :: x), y. simpl. by rewrite Hc, Hx.
    + right. simpl. by rewrite Hc, Hu.
Qed.

Lemma match_reach_pair t caps rest :
  re_match pattern t = Some (caps, rest) ->
  exists t', t = REPO_OPEN ++ t' /\ reach_pair t' = true.
Proof.
  intros (mid & v & oc & ws & v2 & _ & -> & Hmid & Hv & Hoc & Hws & Hv2)
    %RepoFacts.repo_match_inv.
  exists (mid ++ TAGS ++ v ++ oc ++ ws ++ CREATED ++ v2 ++ [COMMA] ++ rest).
  split.
  - rewrite <- (app_assoc REPO_OPEN), <- (app_assoc mid), <- (app_assoc TAGS),
      <- (app_assoc v), <- (app_assoc oc),
      <- (app_assoc CREATED), <- (app_assoc v2). reflexivity.
  - apply reach_pair_skip; [exact Hmid|].
    by apply reach_pair_hit, is_pair_intro.
Qed.

Lemma reach_pair_match t' :
  reach_pair t' = true -> is_Some (re_match pattern (REPO_OPEN ++ t')).
Proof.
  intros (x & y & -> & Hx
          & (v & oc & ws & v2 & rest & -> & Hv & Hoc & Hws & Hv2)%is_pair_inv)
    %reach_pair_inv.
  assert (exists caps,
            sem pattern ((REPO_OPEN ++ x ++ TAGS ++ v ++ oc ++ ws)
                           ++ CREATED ++ v2 ++ [COMMA]) [] caps)
    as [caps Hsem].
  { eexists. unfold pattern. eapply sem_cat.
    - apply sem_grp. eapply sem_cat; [apply sem_str|].
      eapply sem_cat; [by apply sem_star|].
      eapply sem_cat; [apply sem_str|].
      eapply sem_cat; [by apply sem_star|].
      eapply sem_cat; [destruct Hoc as [-> | ->]; constructor|].
      by apply sem_star.
    - apply sem_grp. eapply sem_cat; [apply sem_str|].
      eapply sem_cat; [by apply sem_star|apply sem_str]. }
  destruct (exec_complete _ _ _ _ Hsem rest
              (fun s' caps => Some (caps, s')) (fun _ => ltac:(eauto)) [])
    as [r Hr].
  unfold re_match. exists r. rewrite <- Hr. f_equal.
  rewrite <- (app_assoc _ _ rest), <- (app_assoc CREATED),
    <- (app_assoc v2), <- (app_assoc REPO_OPEN), <- (app_assoc x),
    <- (app_assoc TAGS), <- (app_assoc v), <- (app_assoc oc).
  reflexivity.
Qed.

End RepoHitFacts.

Module RepoTransfer.
Import ReFacts RepoHits RepoPhases RepoHitFacts FixRepo.

Lemma is_pair_phases t :
  is_pair t = match tags_field t with Some _ => true | None => false end.
Proof. reflexivity. Qed.

Section Transfer.
Context {X : Type}.
Variables A B : text.
Variables K K' : text -> option X.
Hypothesis rest_transfer :
  forall y, is_Some (K (y ++ A)) -> is_Some (K' (y ++ B)).

(** If success carries over from [A] to [B], it does so behind any common
    prefix. *)
Lemma star_transfer cls :
  (is_Some (star cls A K) -> is_Some (star cls B K')) ->
  forall y, is_Some (star cls (y ++ A) K) -> is_Some (star cls (y ++ B) K').
Proof using rest_transfer.
  intros Hbase y. induction y as [|c y IH]; [exact Hbase|].
  cbn [app star]. destruct (cls c); [|apply (rest_transfer (c :: y))].
  destruct (star cls (y ++ A) K) as [a|] eqn:Hs; cbn [orelse].
  - intros _. destruct (IH ltac:(eauto)) as [b ->]. simpl. eauto.
  - intros H. apply (rest_transfer (c :: y)) in H.
    destruct (star cls (y ++ B) K'); simpl; eauto.
Qed.

Lemma opt_transfer c :
  (is_Some (opt c A K) -> is_Some (opt c B K')) ->
  forall y, is_Some (opt c (y ++ A) K) -> is_Some (opt c (y ++ B) K').
Proof using rest_transfer.
  intros Hbase [|d y]; [exact Hbase|].
  cbn [app opt]. destruct (d =? c)%N; [|apply (rest_transfer (d :: y))].
  destruct (K (y ++ A)) as [a|] eqn:Hs; cbn [orelse].
  - intros _. destruct (rest_transfer y ltac:(rewrite Hs; eauto)) as [b ->].
    simpl. eauto.
  - intros H. apply (rest_transfer (d :: y)) in H.
    destruct (K' (y ++ B)); simpl; eauto.
Qed.

Lemma lit_transfer l :
  (forall l1 l2, l = l1 ++ l2 -> l2 <> [] ->
                 is_Some (lit l2 A K) -> is_Some (lit l2 B K')) ->
  forall y, is_Some (lit l (y ++ A) K) -> is_Some (lit l (y ++ B) K').
Proof using rest_transfer.
  induction l as [|c l IH]; intros Hbase y; [apply (rest_transfer y)|].
  destruct y as [|d y]; [by apply (Hbase [] (c :: l))|].
  cbn [app lit]. destruct (d =? c)%N; [|done].
  apply IH. intros l1 l2 -> Hl2. by apply (Hbase (c :: l1) l2).
Qed.

End Transfer.

(** No literal of the pattern goes on into the inserted text, which starts
    with [p]. *)
Lemma lit_mismatch {X} (l s : text) (k : text -> option X) :
  forallb Hits.not_p l = true -> l <> [] -> lit l (112%N :: s) k = None.
Proof.
  destruct l as [|c l]; [done|]. cbn [lit forallb].
  intros [Hc _]%andb_true_iff _.
  unfold Hits.not_p in Hc. apply negb_true_iff in Hc.
  rewrite N.eqb_sym in Hc. by rewrite Hc.
Qed.

Lemma lit_into_inserted {X} (l l1 l2 z : text) (k : text -> option X) :
  forallb Hits.not_p l = true -> l = l1 ++ l2 -> l2 <> [] ->
  lit l2 (INSERTED ++ z) k = None.
Proof.
  intros Hl -> Hl2. rewrite forallb_app in Hl.
  apply andb_true_iff in Hl as [_ Hl].
  change (INSERTED ++ z) with (112%N :: tail INSERTED ++ z).
  by apply lit_mismatch.
Qed.

Section IntoInserted.
Variables z B : text.
Hypothesis value_here : is_Some (created_value B).

Lemma final_comma_transfer y :
  is_Some (final_comma (y ++ INSERTED ++ z)) -> is_Some (final_comma (y ++ B)).
Proof.
  destruct y as [|c y]; [intros [? H]; discriminate H|].
  unfold final_comma. cbn [app lit]. by destruct (c =? COMMA)%N.
Qed.

Lemma created_value_transfer y :
  is_Some (created_value (y ++ INSERTED ++ z)) ->
  is_Some (created_value (y ++ B)).
Proof using value_here.
  apply (star_transfer _ _ _ _ final_comma_transfer). by intros _.
Qed.

Lemma created_field_transfer y :
  is_Some (created_field (y ++ INSERTED ++ z)) ->
  is_Some (created_field (y ++ B)).
Proof using value_here.
  apply (lit_transfer _ _ _ _ created_value_transfer).
  intros l1 l2 Hl Hl2.
  rewrite (lit_into_inserted CREATED l1 l2 z _ eq_refl Hl Hl2).
  by intros [? ?].
Qed.

Lemma lead_space_transfer y :
  is_Some (lead_space (y ++ INSERTED ++ z)) -> is_Some (lead_space (y ++ B)).
Proof using value_here.
  apply (star_transfer _ _ _ _ created_field_transfer).
  intros [? H]. discriminate H.
Qed.

Lemma lead_comma_transfer y :
  is_Some (lead_comma (y ++ INSERTED ++ z)) -> is_Some (lead_comma (y ++ B)).
Proof using value_here.
  apply (opt_transfer _ _ _ _ lead_space_transfer).
  intros [? H]. discriminate H.
Qed.

Lemma tags_value_transfer y :
  is_Some (tags_value (y ++ INSERTED ++ z)) -> is_Some (tags_value (y ++ B)).
Proof using value_here.
  apply (star_transfer _ _ _ _ lead_comma_transfer).
  intros [? H]. vm_compute in H. discriminate H.
Qed.

Lemma tags_field_transfer y :
  is_Some (tags_field (y ++ INSERTED ++ z)) -> is_Some (tags_field (y ++ B)).
Proof using value_here.
  apply (lit_transfer _ _ _ _ tags_value_transfer).
  intros l1 l2 Hl Hl2.
  rewrite (lit_into_inserted TAGS l1 l2 z _ eq_refl Hl Hl2).
  by intros [? ?].
Qed.

(** A pair that starts before the inserted text ends before it or ends at
    its comma; with [B] in its place the pair is still there. *)
Lemma pair_transfer y :
  is_pair (y ++ INSERTED ++ z) = true -> is_pair (y ++ B) = true.
Proof using value_here.
  rewrite !is_pair_phases. intros H.
  destruct (tags_field_transfer y) as [r ->]; [|done].
  destruct (tags_field (y ++ INSERTED ++ z)); [eauto|discriminate].
Qed.

End IntoInserted.

Lemma value_at_inserted : is_Some (created_value INSERTED).
Proof. vm_compute. eauto. Qed.

Lemma value_at_assignment v2 rest :
  forallb not_comma_nl v2 = true ->
  is_Some (created_value ((CREATED ++ v2 ++ [COMMA]) ++ rest)).
Proof.
  intros Hv2. unfold created_value.
  rewrite <- (app_assoc CREATED), <- (app_assoc v2), (app_assoc CREATED).
  apply star_some; [by rewrite forallb_app, Hv2|].
  unfold final_comma. simpl. eauto.
Qed.

End RepoTransfer.

Module RepoOutput.
Import ReFacts RepoHits RepoPhases RepoHitFacts RepoTransfer FixRepo.

Lemma reach_pair_transfer A B :
  (forall y, is_pair (y ++ A) = true -> is_pair (y ++ B) = true) ->
  (reach_pair A = true -> reach_pair B = true) ->
  forall y, reach_pair (y ++ A) = true -> reach_pair (y ++ B) = true.
Proof.
  intros Hpair Hbase y. induction y as [|c y IH]; [exact Hbase|].
  cbn [app reach_pair].
  intros [Hh|[Hc Hr]%andb_true_iff]%orb_true_iff.
  - pose proof (Hpair (c :: y) Hh) as Hh'. cbn [app] in Hh'. by rewrite Hh'.
  - rewrite Hc, (IH Hr). apply orb_true_r.
Qed.

(** No pair starts in the inserted text. *)
Lemma reach_pair_inserted y : reach_pair (INSERTED ++ y) = reach_pair y.
Proof. reflexivity. Qed.

(** What a match is replaced by. *)
Lemma sub_at_match t caps rest :
  re_match pattern t = Some (caps, rest) ->
  exists g1tail v2,
    group 1 caps = REPO_OPEN ++ g1tail /\
    group 2 caps = CREATED ++ v2 ++ [COMMA] /\
    forallb not_comma_nl v2 = true /\
    t = (REPO_OPEN ++ g1tail) ++ (CREATED ++ v2 ++ [COMMA]) ++ rest /\
    new_content t
    = (REPO_OPEN ++ g1tail) ++ INSERTED
        ++ (CREATED ++ v2 ++ [COMMA]) ++ new_content rest.
Proof.
  intros Hm.
  destruct (RepoFacts.repo_match_inv _ _ _ Hm)
    as (mid & v & oc & ws & v2 & Hcaps & Ht & _ & _ & _ & _ & Hv2).
  exists (mid ++ TAGS ++ v ++ oc ++ ws), v2.
  unfold new_content. rewrite (sub_match _ _ RepoFacts.repo_nonempty _ _ _ Hm).
  rewrite Hcaps, RepoFacts.repo_replace_func_groups. cbn [group Nat.eqb].
  repeat split; try assumption.
  rewrite <- (app_assoc (REPO_OPEN ++ _)), <- (app_assoc INSERTED).
  reflexivity.
Qed.

(** A pair in the output was a pair in the input. *)
Lemma pair_in_output t : forall a,
  is_pair (a ++ new_content t) = true -> is_pair (a ++ t) = true.
Proof.
  induction t as [|c t IH]; intros a; [done|].
  destruct (re_match pattern (c :: t)) as [[caps rest]|] eqn:Hm.
  - destruct (sub_at_match _ _ _ Hm) as (g1tail & v2 & _ & _ & Hv2 & -> & ->).
    rewrite !(app_assoc a).
    apply pair_transfer, value_at_assignment, Hv2.
  - unfold new_content. rewrite (sub_nomatch _ _ _ _ Hm).
    rewrite !(cons_middle c), !(app_assoc a). apply IH.
Qed.

(** And a pair in reach in the output was in reach in the input. *)
Lemma reach_in_output t : forall a,
  reach_pair (a ++ new_content t) = true -> reach_pair (a ++ t) = true.
Proof.
  remember (length t) as n eqn:Hn. revert t Hn.
  induction n as [n IH] using lt_wf_ind. intros t -> a.
  apply reach_pair_transfer; [intros y; apply pair_in_output|]. clear a.
  destruct t as [|c t]; [done|].
  destruct (re_match pattern (c :: t)) as [[caps rest]|] eqn:Hm.
  - pose proof (RepoFacts.repo_nonempty _ _ _ Hm) as Hlen.
    destruct (sub_at_match _ _ _ Hm) as (g1tail & v2 & _ & _ & Hv2 & Ht & ->).
    rewrite Ht.
    apply reach_pair_transfer.
    + intros y. apply pair_transfer, value_at_assignment, Hv2.
    + rewrite reach_pair_inserted. apply (IH _ Hlen rest eq_refl).
  - unfold new_content. rewrite (sub_nomatch _ _ _ _ Hm).
    cbn [reach_pair].
    intros [Hh|[Hc Hr]%andb_true_iff]%orb_true_iff.
    + pose proof (pair_in_output t [c] Hh) as Hh'. cbn [app] in Hh'.
      by rewrite Hh'.
    + pose proof (IH (length t) ltac:(simpl; lia) t eq_refl [] Hr) as Hr'.
      cbn [app] in Hr'. rewrite Hc, Hr'. apply orb_true_r.
Qed.

(** Text copied to the output before the first [R]. *)
Lemma sub_copy_prefix l : forall t x,
  forallb not_cap_r l = true -> new_content t = l ++ x ->
  exists t', t = l ++ t' /\ x = new_content t'.
Proof.
  induction l as [|c l IH]; intros t x Hl Heq; [by exists t|].
  cbn [forallb] in Hl. apply andb_true_iff in Hl as [Hc Hl].
  destruct t as [|d t]; [discriminate Heq|].
  destruct (re_match pattern (d :: t)) as [[caps rest]|] eqn:Hm.
  - destruct (sub_at_match _ _ _ Hm) as (g1tail & v2 & _ & _ & _ & _ & Hsub).
    rewrite Hsub in Heq. injection Heq as <- _. discriminate Hc.
  - unfold new_content in Heq. rewrite (sub_nomatch _ _ _ _ Hm) in Heq.
    injection Heq as -> Heq. destruct (IH t x Hl Heq) as (t' & -> & ->).
    by exists t'.
Qed.

(** Where the output has a match at its start, the input has one. *)
Lemma output_head_match s :
  is_Some (re_match pattern (new_content s)) -> is_Some (re_match pattern s).
Proof.
  intros [[caps rest] Hm].
  destruct (match_reach_pair _ _ _ Hm) as (tO & Heq & Hreach).
  change REPO_OPEN with (82%N :: tail REPO_OPEN) in Heq.
  destruct s as [|c s]; [discriminate Heq|].
  destruct (re_match pattern (c :: s)) as [r|] eqn:Hs; [eauto|exfalso].
  unfold new_content in Heq. rewrite (sub_nomatch _ _ _ _ Hs) in Heq.
  injection Heq as -> Heq.
  apply (sub_copy_prefix (tail REPO_OPEN) s tO) in Heq as (ts & -> & ->);
    [|reflexivity].
  apply (reach_in_output ts []) in Hreach. cbn [app] in Hreach.
  apply reach_pair_match in Hreach as [r Hr].
  assert (re_match pattern (REPO_OPEN ++ ts) = None) as Hs' by exact Hs.
  congruence.
Qed.

End RepoOutput.

Module RepoGreedy.
Import ReFacts RepoHits RepoHitFacts GreedyFacts FixRepo.

Lemma take_matched (x y : text) :
  take (length (x ++ y) - length y) (x ++ y) = x.
Proof. by rewrite length_app, Nat.add_sub, take_app_length. Qed.

(** The groups of a match, and greediness: the match ends in the last pair
    that can be reached from the opener without a closing brace. *)
Lemma repo_match_last t caps rest :
  re_match pattern t = Some (caps, rest) ->
  exists x l g,
    caps = [(2, g); (1, REPO_OPEN ++ x ++ l)] /\
    t = (REPO_OPEN ++ x ++ l) ++ g ++ rest /\
    forallb not_rbrace x = true /\
    (forallb not_rbrace l = true -> reach_pair (g ++ rest) = false).
Proof.
  intros H. unfold re_match, pattern in H. cbn [exec] in H.
  apply lit_inv in H as (s1 & Ht & H).
  apply star_greedy in H as (x & y & -> & Hx & Hk & Hmax).
  cbv beta in Hmax.
  apply lit_inv in Hk as (s3 & -> & Hk).
  apply star_inv in Hk as (v & s4 & -> & Hv & Hk).
  apply opt_inv in Hk as (oc & s5 & -> & Hoc & Hk).
  apply star_inv in Hk as (ws & s6 & -> & Hws & Hk).
  apply lit_inv in Hk as (s7 & -> & Hk).
  apply star_inv in Hk as (v2 & s8 & -> & Hv2 & Hk).
  apply lit_inv in Hk as (s9 & -> & Hk).
  apply (inj Some), pair_equal_spec in Hk as [Hcaps ->].
  exists x, (TAGS ++ v ++ oc ++ ws), (CREATED ++ v2 ++ [COMMA]).
  assert (t = (REPO_OPEN ++ x ++ TAGS ++ v ++ oc ++ ws)
                ++ (CREATED ++ v2 ++ [COMMA]) ++ rest) as Et.
  { rewrite Ht, <- (app_assoc REPO_OPEN), <- (app_assoc x),
      <- (app_assoc TAGS), <- (app_assoc v), <- (app_assoc oc),
      <- (app_assoc CREATED), <- (app_assoc v2). reflexivity. }
  split; [|split; [exact Et|split; [exact Hx|]]].
  - rewrite <- Hcaps.
    replace (CREATED ++ v2 ++ [COMMA] ++ rest)
      with ((CREATED ++ v2 ++ [COMMA]) ++ rest)
      by (rewrite <- (app_assoc CREATED), <- (app_assoc v2); reflexivity).
    rewrite take_matched. rewrite Et at 1 2.
    rewrite (app_assoc _ _ rest), length_app.
    replace (length ((REPO_OPEN ++ x ++ TAGS ++ v ++ oc ++ ws)
                       ++ CREATED ++ v2 ++ [COMMA]) + length rest
             - length ((CREATED ++ v2 ++ [COMMA]) ++ rest))
      with (length (REPO_OPEN ++ x ++ TAGS ++ v ++ oc ++ ws))
      by (rewrite !length_app; simpl; lia).
    rewrite <- (app_assoc _ _ rest), take_app_length. reflexivity.
  - intros Hl. destruct (reach_pair _) eqn:Hreach; [exfalso|reflexivity].
    apply reach_pair_inv in Hreach
      as (x2 & y2 & Heq & Hx2
          & (v' & oc' & ws' & v2' & r' & -> & Hv' & Hoc' & Hws' & Hv2')
              %is_pair_inv).
    specialize (Hmax ((TAGS ++ v ++ oc ++ ws) ++ x2)
                  (TAGS ++ v' ++ oc' ++ ws' ++ CREATED ++ v2' ++ [COMMA] ++ r')).
    match type of Hmax with
    | _ -> _ -> _ -> ?lhs = None => assert (is_Some lhs) as [r Hr]
    end.
    { rewrite lit_app. apply star_some; [exact Hv'|].
      apply opt_some; [exact Hoc'|]. apply star_some; [exact Hws'|].
      rewrite lit_app. apply star_some; [exact Hv2'|].
      rewrite lit_app. eauto. }
    rewrite Hmax in Hr; [discriminate| | |].
    + rewrite <- (app_assoc _ x2), <- Heq, <- (app_assoc TAGS),
        <- (app_assoc v), <- (app_assoc oc),
        <- (app_assoc CREATED), <- (app_assoc v2). reflexivity.
    + discriminate.
    + by rewrite forallb_app, Hl, Hx2.
Qed.

End RepoGreedy.

Module RepoOpeners.
Import ReFacts RepoHits FixRepo.

(** [Repo {] does not end in the inserted text. *)
Lemma opener_across (l l2 b r : text) :
  REPO_OPEN = l ++ l2 -> INSERTED ++ b = l2 ++ r -> l2 = [].
Proof.
  intros HR Hins.
  unfold REPO_OPEN in HR.
  destruct l as [|a1 [|a2 [|a3 [|a4 [|a5 [|a6 l]]]]]]; cbn in HR.
  1-6: try (injection HR; clear HR; intros); subst;
    cbn in Hins; congruence.
  injection HR as _ _ _ _ _ _ HR. symmetry in HR.
  by apply app_eq_nil in HR as [_ ->].
Qed.

(** Nor does it start there. *)
Lemma opener_in_inserted (l l2 r b : text) :
  INSERTED = l ++ l2 -> REPO_OPEN ++ r = l2 ++ b -> l2 = [].
Proof.
  intros Hins HR. destruct l2 as [|c l2]; [reflexivity|exfalso].
  injection HR as <- _.
  assert (forallb not_cap_r INSERTED = true) as Hno by reflexivity.
  rewrite Hins, forallb_app in Hno. apply andb_true_iff in Hno as [_ Hno].
  discriminate Hno.
Qed.

(** An opener in a text with the inserted text in it lies before or behind
    the inserted text. *)
Lemma opener_in_output (a b pre r : text) :
  a ++ INSERTED ++ b = pre ++ REPO_OPEN ++ r ->
  (exists q, a = pre ++ REPO_OPEN ++ q) \/
  (exists q, b = q ++ REPO_OPEN ++ r).
Proof.
  intros Heq. apply app_eq_app in Heq as [l [[-> Heq]|[-> Heq]]].
  - left. symmetry in Heq.
    apply app_eq_app in Heq as [l2 [[-> _]|[HR Hins]]]; [by exists l2|].
    rewrite (opener_across _ _ _ _ HR Hins), app_nil_r in HR. subst l.
    exists []. by rewrite app_nil_r.
  - right. apply app_eq_app in Heq as [l2 [[Hins HR]|[_ ->]]]; [|by exists l2].
    rewrite (opener_in_inserted _ _ _ _ Hins HR) in HR. exists [].
    symmetry. exact HR.
Qed.

(** A text that ends in a comma and is followed by more text: an opener
    that starts in it does not run beyond it. *)
Lemma opener_before_comma (l0 x tO : text) :
  l0 <> [] -> l0 ++ x = REPO_OPEN ++ tO ->
  (exists u, l0 = u ++ [COMMA]) ->
  exists l', l0 = REPO_OPEN ++ l'.
Proof.
  intros Hne Heq [u ->].
  apply app_eq_app in Heq as [k [[Hu _]|[HR _]]]; [by exists k|exfalso].
  assert (forallb (fun c => negb (c =? COMMA)%N) REPO_OPEN = true) as Hno
    by reflexivity.
  rewrite HR, !forallb_app in Hno. simpl in Hno.
  by rewrite andb_false_r in Hno.
Qed.

(** A nonempty end of a text that ends in a comma ends in a comma. *)
Lemma suffix_ends_in_comma (pre l0 u : text) :
  l0 <> [] -> pre ++ l0 = u ++ [COMMA] -> exists u', l0 = u' ++ [COMMA].
Proof.
  intros Hne Heq. destruct (exists_last Hne) as (u' & c & ->).
  rewrite app_assoc in Heq. apply app_inj_tail in Heq as [_ ->]. by exists u'.
Qed.

End RepoOpeners.

Module RepoTwice.
Import ReFacts OccFacts RepoHits RepoHitFacts RepoTransfer RepoOutput
  RepoGreedy RepoOpeners FixRepo.

(** A second opener in a match, by where it is. *)
Lemma second_opener_intro (caps : captures) (a b : text) :
  a <> [] -> group 1 caps ++ group 2 caps = a ++ REPO_OPEN ++ b ->
  second_opener caps = true.
Proof.
  intros Ha Heq. unfold second_opener. rewrite Heq.
  destruct a as [|c a]; [done|]. cbn [app tail].
  pose proof (occurrences_after REPO_OPEN a b ltac:(discriminate)) as Hocc.
  destruct (occurrences REPO_OPEN (a ++ REPO_OPEN ++ b)); [lia|reflexivity].
Qed.

Lemma repo_clean_nowhere s : forall pos,
  clean (finditer_from pattern pos 0 s) = true ->
  all_plain (finditer_from pattern pos 0 s) = true ->
  nowhere pattern (new_content s).
Proof.
  remember (length s) as n eqn:Hn. revert s Hn.
  induction n as [n IH] using lt_wf_ind. intros s -> pos Hclean Hsingle.
  destruct s as [|c s].
  { intros pre t Heq. symmetry in Heq. apply app_eq_nil in Heq as [_ ->].
    apply (match_nil _ RepoFacts.repo_nonempty). }
  destruct (re_match pattern (c :: s)) as [[caps rest]|] eqn:Hm.
  - (* a match here *)
    pose proof (RepoFacts.repo_nonempty _ _ _ Hm) as Hlen.
    destruct (repo_match_last _ _ _ Hm) as (x & l & g & Hcaps & _ & Hx & Hlast).
    destruct (sub_at_match _ _ _ Hm)
      as (g1tail & v2 & Hg1 & Hg2 & Hv2 & Ht & Hsub).
    rewrite Hsub. clear Hsub.
    rewrite Ht, (app_assoc (REPO_OPEN ++ g1tail)) in Hm, Hclean, Hsingle.
    rewrite (finditer_from_match _ RepoFacts.repo_nonempty _ _ _ _ Hm)
      in Hclean, Hsingle.
    cbn [clean all_plain forallb snd] in Hclean, Hsingle.
    apply andb_true_iff in Hclean as [Hfp Hclean].
    apply andb_true_iff in Hsingle as [Hso Hsingle].
    apply negb_true_iff in Hfp.
    specialize (IH _ Hlen rest eq_refl _ Hclean Hsingle).
    unfold further_pair in Hfp. rewrite Hg1, drop_app_length in Hfp.
    assert (g1tail = x ++ l /\ g = CREATED ++ v2 ++ [COMMA]) as [-> ->].
    { rewrite Hcaps in Hg1, Hg2. cbn [group Nat.eqb] in Hg1, Hg2.
      apply app_inv_head in Hg1. done. }
    clear Hcaps Ht Hm Hlen.
    intros pre t Heq.
    destruct (re_match pattern t) as [[caps' rest']|] eqn:Hm';
      [exfalso|reflexivity].
    rewrite (app_assoc _ INSERTED), (app_assoc _ (CREATED ++ v2 ++ [COMMA]))
      in Heq.
    apply app_eq_app in Heq as [l0 [[HW ->]|[-> Hsub]]];
      [|by rewrite (IH l0 t Hsub) in Hm'].
    destruct l0 as [|d l0].
    { cbn [app] in Hm'. by rewrite (IH [] _ eq_refl) in Hm'. }
    destruct (match_reach_pair _ _ _ Hm') as (tO & HtO & Hreach).
    destruct pre as [|p pre].
    + (* at the opener of the match *)
      cbn [app] in HW. rewrite <- HW in HtO.
      rewrite <- (app_assoc _ _ (new_content rest)),
        <- (app_assoc _ INSERTED), <- (app_assoc REPO_OPEN) in HtO.
      apply app_inv_head in HtO. subst tO.
      apply reach_pair_split in Hreach
        as [(x' & y' & Hxl & Hx' & Hpair)|[Hxl Hreach]].
      * apply (pair_transfer _ INSERTED value_at_inserted) in Hpair.
        rewrite Hxl, <- (app_assoc x'),
          (reach_pair_skip _ _ Hx' (reach_pair_hit _ Hpair)) in Hfp.
        discriminate.
      * rewrite reach_pair_inserted in Hreach.
        apply reach_in_output in Hreach.
        rewrite forallb_app in Hxl. apply andb_true_iff in Hxl as [_ Hl].
        rewrite (Hlast Hl) in Hreach. discriminate.
    + (* inside the match *)
      assert (exists u, d :: l0 = u ++ [COMMA]) as Hcomma.
      { apply (suffix_ends_in_comma (p :: pre) _
                 (((REPO_OPEN ++ x ++ l) ++ INSERTED) ++ CREATED ++ v2));
          [discriminate|].
        rewrite <- HW,
          <- (app_assoc ((REPO_OPEN ++ x ++ l) ++ INSERTED) (CREATED ++ v2)),
          <- (app_assoc CREATED v2).
        reflexivity. }
      destruct (opener_before_comma (d :: l0) _ _ ltac:(discriminate)
                  HtO Hcomma)
        as [l' Hl0].
      rewrite Hl0, <- (app_assoc _ INSERTED) in HW.
      apply orb_true_iff in Hso as [Hso|Hbf].
      { (* no second opener *)
        apply negb_true_iff in Hso.
        enough (second_opener caps = true) by congruence.
        apply opener_in_output in HW as [[q Hq]|[q Hq]].
        - apply (second_opener_intro _ (p :: pre)
                   (q ++ CREATED ++ v2 ++ [COMMA])); [discriminate|].
          rewrite Hg1, Hg2, Hq, <- (app_assoc (p :: pre)),
            <- (app_assoc REPO_OPEN).
          reflexivity.
        - apply (second_opener_intro _ ((REPO_OPEN ++ x ++ l) ++ q) l');
            [by destruct q|].
          rewrite Hg1, Hg2, Hq, <- (app_assoc _ q). reflexivity. }
      (* no closing brace: what the inner opener reaches, the outer one
         reaches *)
      unfold brace_free in Hbf. rewrite Hg1, Hg2, forallb_app in Hbf.
      apply andb_true_iff in Hbf as [Hb1 Hbg]. rewrite !forallb_app in Hb1.
      apply andb_true_iff in Hb1 as [_ [Hbx Hbl]%andb_true_iff].
      rewrite Hl0, <- (app_assoc REPO_OPEN) in HtO.
      apply app_inv_head in HtO. subst tO.
      pose proof HW as HW'.
      apply opener_in_output in HW' as [[q Hq]|[q Hq]].
      * rewrite Hq, <- !(app_assoc (p :: pre)), <- !(app_assoc REPO_OPEN) in HW.
        do 2 apply app_inv_head in HW. subst l'.
        rewrite <- (app_assoc q) in Hreach.
        apply reach_pair_split in Hreach
          as [(x' & y' & Hxy & Hx' & Hpair)|[_ Hreach]].
        -- apply (pair_transfer _ INSERTED value_at_inserted) in Hpair.
           assert (exists z, x ++ l = z ++ y') as [z Hz].
           { rewrite Hxy, (app_assoc REPO_OPEN x'), (app_assoc (p :: pre)) in Hq.
             apply app_eq_app in Hq as [k [[Hk _]|[_ ->]]]; [|by exists k].
             apply (f_equal length) in Hk. rewrite !length_app in Hk.
             simpl in Hk. lia. }
           assert (forallb not_rbrace z = true) as Hbz.
           { assert (forallb not_rbrace (x ++ l) = true) as Hxl
               by by rewrite forallb_app, Hbx, Hbl.
             rewrite Hz, forallb_app in Hxl.
             by apply andb_true_iff in Hxl as [-> _]. }
           rewrite Hz, <- (app_assoc z),
             (reach_pair_skip _ _ Hbz (reach_pair_hit _ Hpair)) in Hfp.
           discriminate.
        -- rewrite <- (app_assoc INSERTED), reach_pair_inserted in Hreach.
           apply reach_in_output in Hreach.
           rewrite (Hlast Hbl) in Hreach. discriminate.
      * apply reach_in_output in Hreach.
        assert (forallb not_rbrace (q ++ REPO_OPEN) = true) as Hbq.
        { rewrite Hq, (app_assoc q), forallb_app in Hbg.
          by apply andb_true_iff in Hbg as [-> _]. }
        pose proof (reach_pair_skip _ _ Hbq Hreach) as Hr.
        rewrite <- (app_assoc q REPO_OPEN), (app_assoc REPO_OPEN l' rest),
          (app_assoc q (REPO_OPEN ++ l') rest), <- Hq in Hr.
        rewrite (Hlast Hbl) in Hr. discriminate.
  - (* no match here *)
    rewrite (finditer_from_nomatch _ _ _ _ Hm) in Hclean, Hsingle.
    specialize (IH (length s) ltac:(simpl; lia) s eq_refl _ Hclean Hsingle).
    destruct (re_match pattern (new_content (c :: s))) as [r|] eqn:Hout.
    { destruct (output_head_match (c :: s)) as [r' Hr']; [by rewrite Hout|].
      congruence. }
    unfold new_content in *. rewrite (sub_nomatch _ _ _ _ Hm) in Hout |- *.
    by apply NoteTwice.nowhere_cons.
Qed.

(** If behind the opener of some match a further pair is in reach, the
    output has a match. *)
Lemma repo_dirty_somewhere s : forall pos,
  clean (finditer_from pattern pos 0 s) = false ->
  exists pre t, new_content s = pre ++ t /\ is_Some (re_match pattern t).
Proof.
  remember (length s) as n eqn:Hn. revert s Hn.
  induction n as [n IH] using lt_wf_ind. intros s -> pos Hdirty.
  destruct s as [|c s].
  { by rewrite (finditer_from_nil _ RepoFacts.repo_nonempty) in Hdirty. }
  destruct (re_match pattern (c :: s)) as [[caps rest]|] eqn:Hm.
  - pose proof (RepoFacts.repo_nonempty _ _ _ Hm) as Hlen.
    destruct (sub_at_match _ _ _ Hm)
      as (g1tail & v2 & Hg1 & Hg2 & Hv2 & Ht & Hsub).
    rewrite Hsub. clear Hsub.
    rewrite Ht, (app_assoc (REPO_OPEN ++ g1tail)) in Hm, Hdirty.
    rewrite (finditer_from_match _ RepoFacts.repo_nonempty _ _ _ _ Hm)
      in Hdirty.
    cbn [clean forallb snd] in Hdirty.
    apply andb_false_iff in Hdirty as [Hfp|Hrest].
    + apply negb_false_iff in Hfp.
      unfold further_pair in Hfp. rewrite Hg1, drop_app_length in Hfp.
      exists [], ((REPO_OPEN ++ g1tail) ++ INSERTED
                    ++ (CREATED ++ v2 ++ [COMMA]) ++ new_content rest).
      split; [reflexivity|].
      rewrite <- (app_assoc REPO_OPEN), (app_assoc g1tail).
      by apply reach_pair_match, reach_pair_app.
    + destruct (IH _ Hlen rest eq_refl _ Hrest) as (pre & t & -> & Ht').
      exists ((REPO_OPEN ++ g1tail) ++ INSERTED
                ++ (CREATED ++ v2 ++ [COMMA]) ++ pre), t.
      split; [|exact Ht'].
      rewrite <- !(app_assoc (REPO_OPEN ++ g1tail)), <- !(app_assoc INSERTED),
        <- (app_assoc (CREATED ++ v2 ++ [COMMA])). reflexivity.
  - rewrite (finditer_from_nomatch _ _ _ _ Hm) in Hdirty.
    destruct (IH (length s) ltac:(simpl; lia) s eq_refl _ Hdirty)
      as (pre & t & Hsub & Ht).
    unfold new_content in *. rewrite (sub_nomatch _ _ _ _ Hm), Hsub.
    by exists (c :: pre), t.
Qed.

End RepoTwice.

(** ** The claims about fix_note.py's substitution *)

Import Samples.

(** C1.  When the scan finds exactly one match in the input, the output is
    the input with the [project_ids] field, its comment, a newline and the
    indentation inserted directly before the matched [created_at]
    assignment; every character of the input is kept, in order.  The match
    starts at offset [p] with [Note {], has no closing brace before
    [note_type,], and only whitespace between [note_type,] and the
    assignment. *)
Theorem note_single_match_inserts (content : text) (p : nat) (m : captures) :
  finditer FixNote.pattern content = [(p, m)] ->
  exists before mid ws after,
    content
    = before ++ (FixNote.NOTE_OPEN ++ mid ++ FixNote.NOTE_TYPE ++ ws)
        ++ FixNote.CREATED_AT ++ after /\
    FixNote.new_content content
    = before ++ (FixNote.NOTE_OPEN ++ mid ++ FixNote.NOTE_TYPE ++ ws)
        ++ (PROJECT_IDS_FIELD ++ [LF] ++ repeat SPACE 20)
        ++ FixNote.CREATED_AT ++ after /\
    length before = p /\
    forallb not_rbrace mid = true /\ forallb isspace ws = true.
Proof.
  intros H.
  destruct (ReFacts.finditer_from_one _ FixNote.replace_func NoteFacts.note_nonempty
              _ _ _ _ H)
    as (pre & x & rest & Hc & Hp & Hm & Hs).
  destruct (NoteFacts.note_match_inv _ _ _ Hm) as (mid & ws & -> & Hx & Hmid & Hws).
  exists pre, mid, ws, rest.
  unfold FixNote.new_content. rewrite Hs, Hc, Hx, NoteFacts.note_replace_func_groups.
  change (PROJECT_IDS_FIELD ++ [LF] ++ repeat SPACE 20) with FixNote.INSERTED.
  repeat split; [|lia|exact Hmid|exact Hws].
  f_equal.
  rewrite <- (app_assoc _ (FixNote.INSERTED ++ FixNote.CREATED_AT) rest).
  rewrite <- (app_assoc FixNote.INSERTED FixNote.CREATED_AT rest).
  reflexivity.
Qed.

Lemma note_single_match_inserts_witness :
  exists before mid ws after,
    shorthand_fragment
    = before ++ (FixNote.NOTE_OPEN ++ mid ++ FixNote.NOTE_TYPE ++ ws)
        ++ FixNote.CREATED_AT ++ after /\
    FixNote.new_content shorthand_fragment
    = before ++ (FixNote.NOTE_OPEN ++ mid ++ FixNote.NOTE_TYPE ++ ws)
        ++ (PROJECT_IDS_FIELD ++ [LF] ++ repeat SPACE 20)
        ++ FixNote.CREATED_AT ++ after /\
    length before = 0 /\
    forallb not_rbrace mid = true /\ forallb isspace ws = true.
Proof.
  apply (note_single_match_inserts shorthand_fragment 0
           [(2, FixNote.CREATED_AT); (1, T "Note { id: 1, note_type, ")]).
  vm_compute. reflexivity.
Defined.

(** C2, as the specification states it: the example fragment is not turned
    into the expected text. *)
Lemma note_spec_example_fails :
  FixNote.new_content spec_fragment <> spec_expected.
Proof. vm_compute. discriminate. Qed.

(** C2, amended.  The example fragment has [note_type: NoteType::Text,] and
    no [note_type,] token, so it is returned unchanged; with the shorthand
    [note_type,] the field, its comment, a newline and twenty spaces are
    inserted before the assignment. *)
Theorem note_example :
  FixNote.new_content spec_fragment = spec_fragment /\
  FixNote.new_content shorthand_fragment = shorthand_patched.
Proof. split; vm_compute; reflexivity. Qed.

(** C3, as the specification states it: a closing brace between the opener
    and [note_type,] prevents the match, and so does a field between
    [note_type,] and the assignment. *)
Lemma note_span_rejects_rbrace :
  re_match FixNote.pattern braced = None /\
  FixNote.new_content braced = braced /\
  FixNote.new_content separated = separated.
Proof. repeat split; vm_compute; reflexivity. Qed.

(** C3, amended.  A match starts at [Note {] and runs through any
    characters other than a closing brace, newlines included, up to the
    last [note_type,] before the next closing brace that is followed by
    whitespace only and then the assignment.  For a text [Note {], a run
    [mid] without closing brace, [note_type,], whitespace [ws], the
    assignment and [rest], group 1 is everything up to the assignment and
    group 2 the assignment exactly when [rest] does not reach, before its
    first closing brace, a further [note_type,] followed by whitespace
    only and the assignment; whatever else follows the assignment plays no
    part. *)
Theorem note_match_span (mid ws rest : text) :
  forallb not_rbrace mid = true ->
  forallb isspace ws = true ->
  re_match FixNote.pattern
    (FixNote.NOTE_OPEN ++ mid ++ FixNote.NOTE_TYPE ++ ws
       ++ FixNote.CREATED_AT ++ rest)
  = Some ([(2, FixNote.CREATED_AT);
           (1, FixNote.NOTE_OPEN ++ mid ++ FixNote.NOTE_TYPE ++ ws)], rest)
  <-> Hits.reach rest = false.
Proof.
  intros Hmid Hws.
  assert (FixNote.NOTE_OPEN ++ mid ++ FixNote.NOTE_TYPE ++ ws
            ++ FixNote.CREATED_AT ++ rest
          = (FixNote.NOTE_OPEN ++ mid ++ FixNote.NOTE_TYPE ++ ws)
              ++ FixNote.CREATED_AT ++ rest) as E.
  { rewrite <- (app_assoc FixNote.NOTE_OPEN), <- (app_assoc mid),
      <- (app_assoc FixNote.NOTE_TYPE). reflexivity. }
  rewrite E. split.
  - apply GreedyFacts.match_last.
  - by apply LastHit.match_exact.
Qed.

Lemma note_match_span_witness :
  re_match FixNote.pattern
    (FixNote.NOTE_OPEN ++ multiline_mid ++ FixNote.NOTE_TYPE ++ multiline_ws
       ++ FixNote.CREATED_AT ++ Cases.more_fields)
  = Some ([(2, FixNote.CREATED_AT);
           (1, FixNote.NOTE_OPEN ++ multiline_mid ++ FixNote.NOTE_TYPE
                 ++ multiline_ws)], Cases.more_fields).
Proof.
  apply (note_match_span multiline_mid multiline_ws Cases.more_fields);
    reflexivity.
Defined.

(** ** Applying a substitution twice *)

(** C4, as the specification states it: on two [note_type,] assignments
    after one opener the first application patches the second assignment
    only (the greedy match runs to the last one), and the second
    application patches the first: the output changes again and the
    construction ends up with two inserted fields. *)
Lemma note_not_idempotent :
  FixNote.new_content (FixNote.new_content twice) <> FixNote.new_content twice /\
  occurrences PROJECT_IDS_FIELD (FixNote.new_content twice) = 1 /\
  occurrences PROJECT_IDS_FIELD (FixNote.new_content (FixNote.new_content twice))
  = 2.
Proof. split; [vm_compute; discriminate|]. split; vm_compute; reflexivity. Qed.

(** C4, amended.  A second application of the substitution changes nothing
    exactly when no match of the first application has, inside its group 1,
    a further [note_type,] followed after whitespace only by the assignment
    [created_at: row.get("created_at"),].  Such an earlier assignment is
    skipped by the greedy first application and patched by the second; in
    every other case the inserted field separates each assignment from its
    [note_type,] and nothing matches any more. *)
Theorem note_idempotent_iff_clean (content : text) :
  FixNote.new_content (FixNote.new_content content)
  = FixNote.new_content content
  <-> Hits.clean (Re.finditer FixNote.pattern content) = true.
Proof.
  split.
  - intros Hfix.
    apply (ReFacts.sub_fixed_iff _ _ NoteFacts.note_nonempty
             NoteFacts.note_grows) in Hfix.
    destruct (Hits.clean _) eqn:Hc; [reflexivity|exfalso].
    apply NoteDirty.dirty_somewhere in Hc as (pre & t & Heq & [r Hr]).
    rewrite (Hfix pre t Heq) in Hr. discriminate.
  - intros Hc. apply (ReFacts.sub_nowhere _ _ NoteFacts.note_nonempty).
    by apply (NoteTwice.clean_nowhere content 0).
Qed.

Lemma note_idempotent_iff_clean_witness :
  FixNote.new_content (FixNote.new_content two_constructions)
  = FixNote.new_content two_constructions.
Proof.
  apply (note_idempotent_iff_clean two_constructions). vm_compute. reflexivity.
Defined.




(** ** The claims about the files *)

(** C5, as the specification states it: a file with [\r\n] line endings
    that neither pattern matches does not come back byte for byte from
    fix_note.py; text mode hands [\r\n] over as [\n] and that is what is
    written. *)
Lemma note_rewrite_changes_crlf :
  finditer FixNote.pattern crlf_text = [] /\
  finditer FixNote.pattern (read_newlines crlf_text) = [] /\
  exists w',
    FixNote.main crlf_world = Ok tt w' /\
    files w' !! FixNote.note_rs = Some (T "a" ++ [LF] ++ T "b") /\
    files w' !! FixNote.note_rs <> files crlf_world !! FixNote.note_rs.
Proof.
  split; [reflexivity|]. split; [reflexivity|].
  eexists. split; [apply (RunFacts.run_note crlf_world crlf_text); reflexivity|].
  simpl. rewrite lookup_insert_eq. split; [reflexivity|].
  unfold crlf_world. simpl. rewrite lookup_singleton_eq. discriminate.
Qed.

(** C5, amended.  On a platform whose line separator is [\n], a file
    without carriage returns that the Note pattern does not match is
    written back by fix_note.py with the same content (the write still
    happens).  A file that the Repo pattern does not match, as read, is
    not written by fix_repo_constructors at all and stays as it is.  The
    two runs are independent: each has its own world. *)
Theorem unmatched_content_round_trip
    (wn : world) (raw : text)
    (wr : world) (file_path : string) (raw_repo : text) :
  files wn !! FixNote.note_rs = Some raw ->
  linesep wn = [LF] ->
  forallb not_cr raw = true ->
  finditer FixNote.pattern raw = [] ->
  files wr !! file_path = Some raw_repo ->
  finditer FixRepo.pattern (read_newlines raw_repo) = [] ->
  (exists w',
     FixNote.main wn = Ok tt w' /\
     files w' = files wn /\
     since wn w' = [EvRead FixNote.note_rs; EvWrite FixNote.note_rs raw;
                    EvPrint "Fixed Note constructors"]) /\
  (exists w',
     FixRepo.fix_repo_constructors file_path wr = Ok tt w' /\
     files w' = files wr /\
     written (since wr w') = []).
Proof.
  intros Hnote Hsep Hcr Hnone Hrepo Hnone_repo. split.
  - eexists. split; [by apply RunFacts.run_note|].
    rewrite Hsep, RunFacts.write_newlines_lf, (RunFacts.read_newlines_no_cr _ Hcr).
    rewrite (proj2 (RunFacts.note_changed_iff raw) Hnone). simpl.
    split; [by apply insert_id|]. by apply RunFacts.since_app.
  - eexists. split.
    + apply (RunFacts.run_fix_repo_unchanged _ _ raw_repo); [done|].
      by apply RunFacts.repo_changed_iff.
    + simpl. split; [reflexivity|].
      erewrite RunFacts.since_app by reflexivity. reflexivity.
Qed.

Lemma unmatched_content_round_trip_witness :
  (exists w',
     FixNote.main Cases.note_only_world = Ok tt w' /\
     files w' = files Cases.note_only_world /\
     since Cases.note_only_world w'
     = [EvRead FixNote.note_rs; EvWrite FixNote.note_rs plain_text;
        EvPrint "Fixed Note constructors"]) /\
  (exists w',
     FixRepo.fix_repo_constructors "src/db/sqlite/critical_tests.rs"
       Cases.repo_only_world = Ok tt w' /\
     files w' = files Cases.repo_only_world /\
     written (since Cases.repo_only_world w') = []).
Proof.
  apply (unmatched_content_round_trip Cases.note_only_world plain_text
           Cases.repo_only_world "src/db/sqlite/critical_tests.rs"
           crlf_text);
    vm_compute; reflexivity.
Defined.

(** C6.  For an existing target file, fix_repo_constructors writes the
    file exactly when the substitution changes the content it read; when
    the pattern matches nowhere (so the content is unchanged) the files
    stay as they are, nothing is written and "No changes needed" is
    printed. *)
Theorem repo_conditional_write (w : world) (file_path : string) (raw : text) :
  files w !! file_path = Some raw ->
  exists w',
    FixRepo.fix_repo_constructors file_path w = Ok tt w' /\
    (file_path ∈ written (since w w')
     <-> FixRepo.new_content (read_newlines raw) <> read_newlines raw) /\
    (written (since w w') <> []
     <-> FixRepo.new_content (read_newlines raw) <> read_newlines raw) /\
    (finditer FixRepo.pattern (read_newlines raw) = [] ->
     FixRepo.new_content (read_newlines raw) = read_newlines raw /\
     files w' = files w /\
     written (since w w') = [] /\
     printed (since w w') = ["No changes needed for " +:+ file_path]).
Proof.
  intros H.
  destruct (decide (FixRepo.new_content (read_newlines raw) = read_newlines raw))
    as [Hsame|Hdiff].
  - eexists. split; [by apply (RunFacts.run_fix_repo_unchanged _ _ raw)|].
    erewrite RunFacts.since_app by reflexivity. simpl.
    split; [split; [by intros ?%elem_of_nil|done]|].
    split; [split; done|]. done.
  - eexists. split; [by apply (RunFacts.run_fix_repo_changed _ _ raw)|].
    erewrite RunFacts.since_app by reflexivity. simpl.
    split; [split; [done|intros _; left]|].
    split; [split; done|].
    intros Hnone. by apply RunFacts.repo_changed_iff in Hnone.
Qed.

Lemma repo_conditional_write_witness :
  exists w',
    FixRepo.fix_repo_constructors "src/db/sqlite/critical_tests.rs" plain_world
    = Ok tt w' /\
    ("src/db/sqlite/critical_tests.rs" ∈ written (since plain_world w')
     <-> FixRepo.new_content (read_newlines plain_text)
         <> read_newlines plain_text) /\
    (written (since plain_world w') <> []
     <-> FixRepo.new_content (read_newlines plain_text)
         <> read_newlines plain_text) /\
    (finditer FixRepo.pattern (read_newlines plain_text) = [] ->
     FixRepo.new_content (read_newlines plain_text) = read_newlines plain_text /\
     files w' = files plain_world /\
     written (since plain_world w') = [] /\
     printed (since plain_world w')
     = ["No changes needed for " +:+ "src/db/sqlite/critical_tests.rs"]).
Proof.
  apply (repo_conditional_write plain_world
           "src/db/sqlite/critical_tests.rs" plain_text).
  vm_compute. reflexivity.
Defined.

(** C7.  A run of fix_repo.py never raises.  It prints one line per
    candidate path, in order: "File not found" for a path that does not
    exist, and for a path that exists "Fixed" when the pattern matches its
    content and "No changes needed" when it does not. *)
Theorem repo_main_reports (w : world) :
  exists w',
    FixRepo.main w = Ok tt w' /\
    printed (since w w') = map (FixRepo.status (files w)) FixRepo.files_to_fix.
Proof.
  destruct (RunFacts.run_for_each FixRepo.files_to_fix) with (w := w)
    as (w' & evs & Hrun & Htr & _ & Hpr & _).
  { exact RunFacts.files_to_fix_distinct. }
  exists w'. split; [exact Hrun|]. by rewrite (RunFacts.since_app _ _ _ Htr).
Qed.

(** C8.  fix_note.py opens one path, [src/db/sqlite/note.rs], and leaves
    every other file alone; fix_repo.py probes the two paths of its list in
    order, opens no other path and leaves every other file alone.  Neither
    takes a path from outside. *)
Theorem hardcoded_paths (w : world) :
  FixNote.note_rs = "src/db/sqlite/note.rs" /\
  FixRepo.files_to_fix
  = ["src/db/sqlite/repo_test.rs"; "src/db/sqlite/critical_tests.rs"] /\
  (match FixNote.main w with
   | Ok _ w' =>
       opened (since w w') = [FixNote.note_rs; FixNote.note_rs] /\
       forall q, q <> FixNote.note_rs -> files w' !! q = files w !! q
   | Raised e w' =>
       e = FileNotFoundError FixNote.note_rs /\ w' = w
   end) /\
  (exists w',
     FixRepo.main w = Ok tt w' /\
     probed (since w w') = FixRepo.files_to_fix /\
     Forall (fun q => q ∈ FixRepo.files_to_fix) (opened (since w w')) /\
     forall q, q ∉ FixRepo.files_to_fix -> files w' !! q = files w !! q).
Proof.
  split; [reflexivity|]. split; [reflexivity|]. split.
  - destruct (files w !! FixNote.note_rs) as [raw|] eqn:H.
    + rewrite (RunFacts.run_note _ _ H).
      erewrite RunFacts.since_app by reflexivity. simpl.
      split; [reflexivity|]. intros q Hq. by rewrite lookup_insert_ne.
    + rewrite (RunFacts.run_note_missing _ H). done.
  - destruct (RunFacts.run_for_each FixRepo.files_to_fix) with (w := w)
      as (w' & evs & Hrun & Htr & _ & _ & Hpb & Hop & Hfs).
    { exact RunFacts.files_to_fix_distinct. }
    exists w'. rewrite (RunFacts.since_app _ _ _ Htr). done.
Qed.

(** C9.  Whatever a match looks like, the text put between its two groups
    is the field with its comment, a newline and a fixed run of spaces:
    twenty in fix_note.py, eight in fix_repo.py.  The indentation that
    group 1 ends with plays no part. *)
Theorem inserted_indent_fixed
    (note_text repo_text : text) (mn mr : captures) (restn restr : text) :
  re_match FixNote.pattern note_text = Some (mn, restn) ->
  re_match FixRepo.pattern repo_text = Some (mr, restr) ->
  FixNote.new_content note_text
  = group 1 mn ++ (PROJECT_IDS_FIELD ++ [LF] ++ repeat SPACE 20)
      ++ group 2 mn ++ FixNote.new_content restn /\
  FixRepo.new_content repo_text
  = group 1 mr ++ (PROJECT_IDS_FIELD ++ [LF] ++ repeat SPACE 8)
      ++ group 2 mr ++ FixRepo.new_content restr.
Proof.
  intros Hn Hr. unfold FixNote.new_content, FixRepo.new_content.
  rewrite (ReFacts.sub_match _ _ NoteFacts.note_nonempty _ _ _ Hn).
  rewrite (ReFacts.sub_match _ _ RepoFacts.repo_nonempty _ _ _ Hr).
  unfold FixNote.replace_func, FixRepo.replace_func.
  change (PROJECT_IDS_FIELD ++ [LF] ++ repeat SPACE 20) with FixNote.INSERTED.
  change (PROJECT_IDS_FIELD ++ [LF] ++ repeat SPACE 8) with FixRepo.INSERTED.
  split.
  - rewrite <- (app_assoc (group 1 mn)), <- (app_assoc FixNote.INSERTED).
    reflexivity.
  - rewrite <- (app_assoc (group 1 mr)), <- (app_assoc FixRepo.INSERTED).
    reflexivity.
Qed.

Lemma inserted_indent_fixed_witness :
  FixNote.new_content shorthand_fragment
  = T "Note { id: 1, note_type, "
      ++ (PROJECT_IDS_FIELD ++ [LF] ++ repeat SPACE 20)
      ++ FixNote.CREATED_AT ++ FixNote.new_content (T " }") /\
  FixRepo.new_content repo_text
  = T "Repo { id: 1, tags: vec![], "
      ++ (PROJECT_IDS_FIELD ++ [LF] ++ repeat SPACE 8)
      ++ (FixRepo.CREATED ++ T "now,") ++ FixRepo.new_content (T " }").
Proof.
  apply (inserted_indent_fixed shorthand_fragment repo_text
           [(2, FixNote.CREATED_AT); (1, T "Note { id: 1, note_type, ")]
           [(2, FixRepo.CREATED ++ T "now,");
            (1, T "Repo { id: 1, tags: vec![], ")]
           (T " }") (T " }")); vm_compute; reflexivity.
Defined.

(** * Further properties of the two scripts *)

(** ** Substitutions that only insert *)

Module InsertOnly.
Import ReFacts.

Section Inserting.
Variable pat : regex.
Variable repl : captures -> text.
Variable ins : text.
Hypothesis nonempty :
  forall s caps rest, re_match pat s = Some (caps, rest) -> length rest < length s.
Hypothesis shape :
  forall s caps rest, re_match pat s = Some (caps, rest) ->
    exists g1 g2, s = g1 ++ g2 ++ rest /\ repl caps = g1 ++ ins ++ g2.

(** Induction along the scan of [sub]: a match and what is left of the
    text, or one character copied. *)
Lemma scan_ind (P : text -> Prop) :
  P [] ->
  (forall c s, re_match pat (c :: s) = None -> P s -> P (c :: s)) ->
  (forall g1 g2 rest caps,
      re_match pat (g1 ++ g2 ++ rest) = Some (caps, rest) ->
      repl caps = g1 ++ ins ++ g2 -> P rest -> P (g1 ++ g2 ++ rest)) ->
  forall s, P s.
Proof using nonempty shape.
  intros Hnil Hcopy Hmatch s.
  remember (length s) as n eqn:Hn. revert s Hn.
  induction n as [n IH] using lt_wf_ind. intros s ->.
  destruct s as [|c s]; [exact Hnil|].
  destruct (re_match pat (c :: s)) as [[caps rest]|] eqn:Hm.
  - pose proof (nonempty _ _ _ Hm) as Hlen.
    destruct (shape _ _ _ Hm) as (g1 & g2 & Hs & Hr).
    rewrite Hs in Hm |- *. apply (Hmatch _ _ _ caps Hm Hr).
    by apply (IH _ Hlen).
  - apply Hcopy; [exact Hm|]. apply (IH (length s)); [simpl; lia|reflexivity].
Qed.

Lemma sub_sublist s : s `sublist_of` sub pat repl s.
Proof using nonempty shape.
  pattern s. apply scan_ind; clear s.
  - by rewrite (sub_nil _ _ nonempty).
  - intros c s Hm IH. rewrite (sub_nomatch _ _ _ _ Hm). by apply sublist_skip.
  - intros g1 g2 rest caps Hm Hr IH.
    rewrite (sub_match _ _ nonempty _ _ _ Hm), Hr.
    rewrite <- (app_assoc g1 (ins ++ g2)), <- (app_assoc ins g2).
    apply sublist_app; [reflexivity|].
    apply sublist_inserts_l. by apply sublist_app.
Qed.

Lemma sub_length_matches s : forall pos,
  length (sub pat repl s)
  = length s + length ins * length (finditer_from pat pos 0 s).
Proof using nonempty shape.
  pattern s. apply scan_ind; clear s.
  - intros pos.
    rewrite (sub_nil _ _ nonempty), (finditer_from_nil _ nonempty). simpl. lia.
  - intros c s Hm IH pos.
    rewrite (sub_nomatch _ _ _ _ Hm), (finditer_from_nomatch _ _ _ _ Hm).
    simpl. by rewrite (IH (S pos)).
  - intros g1 g2 rest caps Hm Hr IH pos.
    rewrite (sub_match _ _ nonempty _ _ _ Hm), Hr.
    rewrite (app_assoc g1 g2) in Hm |- *.
    rewrite (finditer_from_match _ nonempty _ _ _ _ Hm).
    rewrite !length_app, (IH (pos + length (g1 ++ g2))), length_app.
    simpl. lia.
Qed.

Lemma sub_forallb (p : N -> bool) s :
  forallb p ins = true -> forallb p s = true ->
  forallb p (sub pat repl s) = true.
Proof using nonempty shape.
  intros Hins. pattern s. apply scan_ind; clear s.
  - by rewrite (sub_nil _ _ nonempty).
  - intros c s Hm IH. rewrite (sub_nomatch _ _ _ _ Hm). simpl.
    intros [-> Hs]%andb_true_iff. by apply IH.
  - intros g1 g2 rest caps Hm Hr IH.
    rewrite (sub_match _ _ nonempty _ _ _ Hm), Hr, !forallb_app.
    intros [-> [-> Hrest]%andb_true_iff]%andb_true_iff.
    by rewrite Hins, (IH Hrest).
Qed.

End Inserting.
End InsertOnly.

Module NoteInsert.
Import ReFacts FixNote.

Lemma note_shape s caps rest :
  re_match pattern s = Some (caps, rest) ->
  exists g1 g2, s = g1 ++ g2 ++ rest /\ replace_func caps = g1 ++ INSERTED ++ g2.
Proof.
  intros (mid & ws & -> & -> & _)%NoteFacts.note_match_inv.
  exists (NOTE_OPEN ++ mid ++ NOTE_TYPE ++ ws), CREATED_AT.
  split; [reflexivity|apply NoteFacts.note_replace_func_groups].
Qed.

End NoteInsert.

Module RepoInsert.
Import ReFacts FixRepo.

Lemma repo_shape s caps rest :
  re_match pattern s = Some (caps, rest) ->
  exists g1 g2, s = g1 ++ g2 ++ rest /\ replace_func caps = g1 ++ INSERTED ++ g2.
Proof.
  intros (mid & v & oc & ws & v2 & -> & -> & _)%RepoFacts.repo_match_inv.
  exists (REPO_OPEN ++ mid ++ TAGS ++ v ++ oc ++ ws), (CREATED ++ v2 ++ [COMMA]).
  split; [reflexivity|apply RepoFacts.repo_replace_func_groups].
Qed.

End RepoInsert.

Module AnchorFacts.
Import ReFacts OccFacts.

Lemma occurrences_inside frag a b :
  frag <> [] -> 1 <= occurrences frag (a ++ frag ++ b).
Proof.
  intros H. pose proof (occurrences_after frag a b H). lia.
Qed.

Lemma nowhere_without (r : regex) (frag : text) (s : text) :
  (forall t caps rest, re_match r t = Some (caps, rest) ->
                       1 <= occurrences frag t) ->
  occurrences frag s = 0 -> nowhere r s.
Proof.
  intros Hfrag Hocc pre t ->.
  destruct (re_match r t) as [[caps rest]|] eqn:Hm; [exfalso|reflexivity].
  pose proof (Hfrag _ _ _ Hm). pose proof (occurrences_suffix frag pre t). lia.
Qed.

End AnchorFacts.

(** X1.  Both substitutions only insert: the text read is a subsequence of
    the text written, so no character of the input is dropped, changed or
    moved. *)
Theorem substitution_only_inserts (content : text) :
  content `sublist_of` FixNote.new_content content /\
  content `sublist_of` FixRepo.new_content content.
Proof.
  split.
  - apply (InsertOnly.sub_sublist _ _ FixNote.INSERTED
             NoteFacts.note_nonempty NoteInsert.note_shape).
  - apply (InsertOnly.sub_sublist _ _ FixRepo.INSERTED
             RepoFacts.repo_nonempty RepoInsert.repo_shape).
Qed.

(** X2.  Each match adds the same number of characters: the field with its
    comment (75 characters), the newline and the indentation, 96 characters
    in fix_note.py and 84 in fix_repo.py. *)
Theorem substitution_length (content : text) :
  length (FixNote.new_content content)
  = length content + 96 * length (finditer FixNote.pattern content) /\
  length (FixRepo.new_content content)
  = length content + 84 * length (finditer FixRepo.pattern content).
Proof.
  split.
  - apply (InsertOnly.sub_length_matches _ _ FixNote.INSERTED
             NoteFacts.note_nonempty NoteInsert.note_shape).
  - apply (InsertOnly.sub_length_matches _ _ FixRepo.INSERTED
             RepoFacts.repo_nonempty RepoInsert.repo_shape).
Qed.

(** X3.  A text that lacks one of the three literal anchors of a pattern
    comes back unchanged: for fix_note.py [Note {], [note_type,] and
    [created_at: row.get("created_at"),]; for fix_repo.py [Repo {],
    [tags: ] and [created_at: ]. *)
Theorem unanchored_text_unchanged (note_text repo_text : text) :
  occurrences FixNote.NOTE_OPEN note_text = 0 \/
  occurrences FixNote.NOTE_TYPE note_text = 0 \/
  occurrences FixNote.CREATED_AT note_text = 0 ->
  occurrences FixRepo.REPO_OPEN repo_text = 0 \/
  occurrences FixRepo.TAGS repo_text = 0 \/
  occurrences FixRepo.CREATED repo_text = 0 ->
  FixNote.new_content note_text = note_text /\
  FixRepo.new_content repo_text = repo_text.
Proof.
  intros Hn Hr. split.
  - apply (ReFacts.sub_nowhere _ _ NoteFacts.note_nonempty).
    destruct Hn as [H|[H|H]];
      (eapply AnchorFacts.nowhere_without; [|exact H]);
      intros t caps rest (mid & ws & _ & -> & _)%NoteFacts.note_match_inv.
    + rewrite <- (app_assoc FixNote.NOTE_OPEN).
      by apply (AnchorFacts.occurrences_inside _ []).
    + rewrite (app_assoc FixNote.NOTE_OPEN mid),
        <- (app_assoc (FixNote.NOTE_OPEN ++ mid)),
        <- (app_assoc FixNote.NOTE_TYPE).
      by apply AnchorFacts.occurrences_inside.
    + by apply AnchorFacts.occurrences_inside.
  - apply (ReFacts.sub_nowhere _ _ RepoFacts.repo_nonempty).
    destruct Hr as [H|[H|H]];
      (eapply AnchorFacts.nowhere_without; [|exact H]);
      intros t caps rest
        (mid & v & oc & ws & v2 & _ & -> & _)%RepoFacts.repo_match_inv.
    + rewrite <- (app_assoc FixRepo.REPO_OPEN).
      by apply (AnchorFacts.occurrences_inside _ []).
    + rewrite (app_assoc FixRepo.REPO_OPEN mid),
        <- (app_assoc (FixRepo.REPO_OPEN ++ mid)),
        <- (app_assoc FixRepo.TAGS).
      by apply AnchorFacts.occurrences_inside.
    + rewrite <- (app_assoc FixRepo.CREATED).
      by apply AnchorFacts.occurrences_inside.
Qed.

Lemma unanchored_text_unchanged_witness :
  FixNote.new_content Samples.repo_text = Samples.repo_text /\
  FixRepo.new_content Samples.shorthand_fragment = Samples.shorthand_fragment.
Proof.
  apply (unanchored_text_unchanged Samples.repo_text Samples.shorthand_fragment);
    left; vm_compute; reflexivity.
Defined.

(** X4.  A match of the Note pattern at the start of a text is exactly
    this: [Note {], a run without a closing brace, [note_type,], whitespace
    and the assignment [created_at: row.get("created_at"),], where what
    follows the assignment does not reach, without crossing a closing
    brace, a further [note_type,] with whitespace and the assignment.
    Group 1 is everything before the assignment and group 2 the
    assignment: of several assignments behind one opener, the last one is
    the one that is patched. *)
Theorem note_match_exact (s : text) (caps : captures) (rest : text) :
  re_match FixNote.pattern s = Some (caps, rest)
  <-> exists mid ws,
        caps = [(2, FixNote.CREATED_AT);
                (1, FixNote.NOTE_OPEN ++ mid ++ FixNote.NOTE_TYPE ++ ws)] /\
        s = (FixNote.NOTE_OPEN ++ mid ++ FixNote.NOTE_TYPE ++ ws)
              ++ FixNote.CREATED_AT ++ rest /\
        forallb not_rbrace mid = true /\ forallb isspace ws = true /\
        forall x ws2 r,
          forallb not_rbrace x = true -> forallb isspace ws2 = true ->
          rest <> x ++ FixNote.NOTE_TYPE ++ ws2 ++ FixNote.CREATED_AT ++ r.
Proof.
  split.
  - intros Hm.
    destruct (NoteFacts.note_match_inv _ _ _ Hm)
      as (mid & ws & Hcaps & Hs & Hmid & Hws).
    exists mid, ws. repeat split; try assumption.
    by apply LastHit.reach_false_iff, (GreedyFacts.match_last s caps).
  - intros (mid & ws & -> & -> & Hmid & Hws & Hrest).
    apply LastHit.reach_false_iff in Hrest.
    by apply LastHit.match_exact.
Qed.

(** X5.  Every match of the Repo pattern has this shape: group 1 is
    [Repo {], a run without a closing brace, [tags: ], a value without
    comma or newline, an optional comma and whitespace; group 2 is
    [created_at: ], a value without comma or newline, and the comma.  So
    the tags value and the created_at value each lie on one line, and the
    created_at value ends at its first comma. *)
Theorem repo_match_shape (s : text) (caps : captures) (rest : text) :
  re_match FixRepo.pattern s = Some (caps, rest) ->
  exists mid v oc ws v2,
    group 1 caps
    = FixRepo.REPO_OPEN ++ mid ++ FixRepo.TAGS ++ v ++ oc ++ ws /\
    group 2 caps = FixRepo.CREATED ++ v2 ++ [COMMA] /\
    s = group 1 caps ++ group 2 caps ++ rest /\
    forallb not_rbrace mid = true /\ forallb not_comma_nl v = true /\
    (oc = [] \/ oc = [COMMA]) /\ forallb isspace ws = true /\
    forallb not_comma_nl v2 = true.
Proof.
  intros (mid & v & oc & ws & v2 & -> & -> & H)%RepoFacts.repo_match_inv.
  by exists mid, v, oc, ws, v2.
Qed.

Lemma repo_match_shape_witness :
  exists mid v oc ws v2,
    group 1 [(2, FixRepo.CREATED ++ T "now,");
             (1, T "Repo { id: 1, tags: vec![], ")]
    = FixRepo.REPO_OPEN ++ mid ++ FixRepo.TAGS ++ v ++ oc ++ ws /\
    group 2 [(2, FixRepo.CREATED ++ T "now,");
             (1, T "Repo { id: 1, tags: vec![], ")]
    = FixRepo.CREATED ++ v2 ++ [COMMA] /\
    Samples.repo_text
    = group 1 [(2, FixRepo.CREATED ++ T "now,");
               (1, T "Repo { id: 1, tags: vec![], ")]
        ++ group 2 [(2, FixRepo.CREATED ++ T "now,");
                    (1, T "Repo { id: 1, tags: vec![], ")]
        ++ T " }" /\
    forallb not_rbrace mid = true /\ forallb not_comma_nl v = true /\
    (oc = [] \/ oc = [COMMA]) /\ forallb isspace ws = true /\
    forallb not_comma_nl v2 = true.
Proof.
  apply (repo_match_shape Samples.repo_text). vm_compute. reflexivity.
Defined.

Module RepoFound.
Import ReFacts FixRepo.

(** A Repo construction with a [tags: ] field directly before its
    [created_at: ] field is matched where it starts. *)
Lemma construction_matches mid v oc ws v2 post :
  forallb not_rbrace mid = true -> forallb not_comma_nl v = true ->
  oc = [] \/ oc = [COMMA] -> forallb isspace ws = true ->
  forallb not_comma_nl v2 = true ->
  is_Some (re_match pattern
             (REPO_OPEN ++ mid ++ TAGS ++ v ++ oc ++ ws
                ++ CREATED ++ v2 ++ [COMMA] ++ post)).
Proof.
  intros Hmid Hv Hoc Hws Hv2.
  assert (exists caps,
            sem pattern ((REPO_OPEN ++ mid ++ TAGS ++ v ++ oc ++ ws)
                           ++ CREATED ++ v2 ++ [COMMA]) [] caps)
    as [caps Hsem].
  { eexists. unfold pattern. eapply sem_cat.
    - apply sem_grp. eapply sem_cat; [apply sem_str|].
      eapply sem_cat; [by apply sem_star|].
      eapply sem_cat; [apply sem_str|].
      eapply sem_cat; [by apply sem_star|].
      eapply sem_cat; [destruct Hoc as [-> | ->]; constructor|].
      by apply sem_star.
    - apply sem_grp. eapply sem_cat; [apply sem_str|].
      eapply sem_cat; [by apply sem_star|apply sem_str]. }
  destruct (exec_complete _ _ _ _ Hsem post
              (fun s' caps => Some (caps, s')) (fun _ => ltac:(eauto)) [])
    as [r Hr].
  unfold re_match. exists r. rewrite <- Hr. f_equal.
  rewrite <- (app_assoc _ _ post), <- (app_assoc CREATED),
    <- (app_assoc v2), <- (app_assoc REPO_OPEN), <- (app_assoc mid),
    <- (app_assoc TAGS), <- (app_assoc v), <- (app_assoc oc).
  reflexivity.
Qed.

End RepoFound.

(** X6.  A file that holds, anywhere, a Repo construction whose [tags: ]
    field (value without comma or newline, comma optional) comes directly
    before its [created_at: ] field, with no closing brace between
    [Repo {] and [tags: ], is changed by fix_repo_constructors: the new
    content is written and "Fixed" is printed. *)
Theorem repo_construction_fixed
    (w : world) (file_path : string) (raw : text)
    (pre mid v oc ws v2 post : text) :
  files w !! file_path = Some raw ->
  read_newlines raw
  = pre ++ FixRepo.REPO_OPEN ++ mid ++ FixRepo.TAGS ++ v ++ oc ++ ws
      ++ FixRepo.CREATED ++ v2 ++ [COMMA] ++ post ->
  forallb not_rbrace mid = true -> forallb not_comma_nl v = true ->
  oc = [] \/ oc = [COMMA] -> forallb isspace ws = true ->
  forallb not_comma_nl v2 = true ->
  FixRepo.new_content (read_newlines raw) <> read_newlines raw /\
  exists w',
    FixRepo.fix_repo_constructors file_path w = Ok tt w' /\
    files w' !! file_path
    = Some (write_newlines (linesep w)
              (FixRepo.new_content (read_newlines raw))) /\
    printed (since w w') = ["Fixed " +:+ file_path].
Proof.
  intros Hfile Hraw Hmid Hv Hoc Hws Hv2.
  assert (FixRepo.new_content (read_newlines raw) <> read_newlines raw)
    as Hdiff.
  { intros Hsame.
    apply (ReFacts.sub_fixed_iff _ _ RepoFacts.repo_nonempty
             RepoFacts.repo_grows) in Hsame.
    destruct (RepoFound.construction_matches mid v oc ws v2 post
                Hmid Hv Hoc Hws Hv2) as [r Hr].
    rewrite (Hsame pre _ Hraw) in Hr. discriminate. }
  split; [exact Hdiff|].
  eexists. split; [by apply (RunFacts.run_fix_repo_changed _ _ raw)|].
  simpl. rewrite lookup_insert_eq. split; [reflexivity|].
  erewrite RunFacts.since_app by reflexivity. reflexivity.
Qed.

Lemma repo_construction_fixed_witness :
  FixRepo.new_content (read_newlines Cases.repo_crlf)
  <> read_newlines Cases.repo_crlf /\
  exists w',
    FixRepo.fix_repo_constructors "src/db/sqlite/repo_test.rs"
      Cases.mixed_world = Ok tt w' /\
    files w' !! "src/db/sqlite/repo_test.rs"
    = Some (write_newlines (linesep Cases.mixed_world)
              (FixRepo.new_content (read_newlines Cases.repo_crlf))) /\
    printed (since Cases.mixed_world w')
    = ["Fixed " +:+ "src/db/sqlite/repo_test.rs"].
Proof.
  apply (repo_construction_fixed Cases.mixed_world
           "src/db/sqlite/repo_test.rs" Cases.repo_crlf
           [] [LF; SPACE; SPACE; SPACE; SPACE] (T "vec![]") [COMMA]
           [LF; SPACE; SPACE; SPACE; SPACE] (T "now") [LF; RBRACE]);
    try (vm_compute; reflexivity).
  right. reflexivity.
Defined.

(** ** Line endings and whole runs *)

Module NewlineFacts.

(** One step of [read_newlines]. *)
Lemma read_newlines_cons c raw :
  read_newlines (c :: raw)
  = if (c =? CR)%N
    then LF :: read_newlines
                 match raw with
                 | d :: raw' => if (d =? LF)%N then raw' else raw
                 | [] => []
                 end
    else c :: read_newlines raw.
Proof.
  destruct raw as [|d raw]; cbn [read_newlines].
  - destruct (c =? CR)%N; reflexivity.
  - destruct (c =? CR)%N, (d =? LF)%N; reflexivity.
Qed.

(** What [read] hands over has no carriage return. *)
Lemma read_newlines_strips_cr raw : forallb not_cr (read_newlines raw) = true.
Proof.
  remember (length raw) as n eqn:Hn. revert raw Hn.
  induction n as [n IH] using lt_wf_ind. intros raw ->.
  destruct raw as [|c raw]; [reflexivity|].
  rewrite read_newlines_cons. destruct (c =? CR)%N eqn:Hc; cbn [forallb].
  - change (not_cr LF) with true. cbn [andb].
    eapply IH; [|reflexivity].
    destruct raw as [|d raw]; [simpl; lia|].
    destruct (d =? LF)%N; simpl; lia.
  - unfold not_cr at 1. rewrite Hc. cbn [negb andb].
    apply (IH (length raw)); [simpl; lia|reflexivity].
Qed.

(** Text without carriage returns, written with the separator of either
    platform, is read back as it was. *)
Lemma read_write_native sep data :
  sep = [LF] \/ sep = [CR; LF] ->
  forallb not_cr data = true ->
  read_newlines (write_newlines sep data) = data.
Proof.
  intros Hsep. induction data as [|c data IH]; [reflexivity|]. simpl.
  intros [Hc Hdata]%andb_true_iff. unfold not_cr in Hc.
  apply negb_true_iff in Hc.
  destruct (c =? LF)%N eqn:Hlf.
  - apply N.eqb_eq in Hlf as ->.
    destruct Hsep as [-> | ->]; simpl; by rewrite (IH Hdata).
  - simpl. by rewrite Hc, (IH Hdata).
Qed.

End NewlineFacts.

Module RepoRun.
Import RunFacts.

(** The content of a candidate file after its turn in the loop. *)
Lemma fix_or_report_file w file_path :
  exists w',
    FixRepo.fix_or_report file_path w = Ok tt w' /\
    linesep w' = linesep w /\
    (forall q, q <> file_path -> files w' !! q = files w !! q) /\
    files w' !! file_path
    = match files w !! file_path with
      | None => None
      | Some raw =>
          if decide (FixRepo.new_content (read_newlines raw) = read_newlines raw)
          then Some raw
          else Some (write_newlines (linesep w)
                       (FixRepo.new_content (read_newlines raw)))
      end.
Proof.
  unfold FixRepo.fix_or_report, path_exists, mbind, M_bind.
  destruct (files w !! file_path) as [raw|] eqn:Hfile.
  - rewrite bool_decide_eq_true_2 by eauto.
    set (w1 := log _ w).
    assert (files w1 !! file_path = Some raw) as Hfile1 by exact Hfile.
    destruct (decide (FixRepo.new_content (read_newlines raw)
                      = read_newlines raw)) as [Hsame|Hdiff].
    + rewrite (run_fix_repo_unchanged w1 _ raw Hfile1 Hsame).
      eexists. split; [reflexivity|]. simpl. auto.
    + rewrite (run_fix_repo_changed w1 _ raw Hfile1 Hdiff).
      eexists. split; [reflexivity|]. simpl.
      split; [reflexivity|]. rewrite lookup_insert_eq.
      split; [|reflexivity]. intros q Hq. by rewrite lookup_insert_ne.
  - rewrite bool_decide_eq_false_2 by (intros [? ?]; congruence).
    eexists. split; [reflexivity|]. simpl. auto.
Qed.

Lemma for_each_files paths : NoDup paths -> forall w,
  exists w',
    for_each paths FixRepo.fix_or_report w = Ok tt w' /\
    linesep w' = linesep w /\
    (forall q, q ∉ paths -> files w' !! q = files w !! q) /\
    forall p, p ∈ paths ->
      files w' !! p
      = match files w !! p with
        | None => None
        | Some raw =>
            if decide (FixRepo.new_content (read_newlines raw)
                       = read_newlines raw)
            then Some raw
            else Some (write_newlines (linesep w)
                         (FixRepo.new_content (read_newlines raw)))
        end.
Proof.
  induction 1 as [|p paths Hp Hnodup IH]; intros w.
  - exists w. split; [reflexivity|]. split; [reflexivity|].
    split; [done|]. by intros p Hp%elem_of_nil.
  - destruct (fix_or_report_file w p) as (w1 & Hrun1 & Hsep1 & Hother1 & Hp1).
    destruct (IH w1) as (w' & Hrun & Hsep & Hother & Hpaths).
    exists w'. split.
    { cbn [for_each]. unfold mbind, M_bind. by rewrite Hrun1. }
    split; [congruence|]. split.
    + intros q Hq. rewrite not_elem_of_cons in Hq. destruct Hq as [Hqp Hq].
      by rewrite (Hother q Hq), (Hother1 q Hqp).
    + intros q [->|Hq]%elem_of_cons.
      * by rewrite (Hother p Hp), Hp1.
      * assert (q <> p) as Hqp by (intros ->; done).
        by rewrite (Hpaths q Hq), Hsep1, (Hother1 q Hqp).
Qed.

End RepoRun.

(** X7.  fix_note.py raises [FileNotFoundError] exactly when
    [src/db/sqlite/note.rs] does not exist, and then it has done nothing:
    no file is created, nothing is printed. *)
Theorem note_missing_file (w : world) :
  files w !! FixNote.note_rs = None
  <-> FixNote.main w = Raised (FileNotFoundError FixNote.note_rs) w.
Proof.
  split; [apply RunFacts.run_note_missing|].
  destruct (files w !! FixNote.note_rs) as [raw|] eqn:H; [|done].
  rewrite (RunFacts.run_note _ _ H). discriminate.
Qed.

(** X8.  Whenever the file exists, fix_note.py returns normally, writes the
    file once and prints "Fixed Note constructors", whether the pattern
    matched or not; the file then holds the substituted text with [\n]
    written as the platform's separator. *)
Theorem note_always_reports (w : world) (raw : text) :
  files w !! FixNote.note_rs = Some raw ->
  exists w',
    FixNote.main w = Ok tt w' /\
    files w' !! FixNote.note_rs
    = Some (write_newlines (linesep w)
              (FixNote.new_content (read_newlines raw))) /\
    written (since w w') = [FixNote.note_rs] /\
    printed (since w w') = ["Fixed Note constructors"].
Proof.
  intros H. eexists. split; [by apply RunFacts.run_note|].
  simpl. rewrite lookup_insert_eq. split; [reflexivity|].
  erewrite RunFacts.since_app by reflexivity. split; reflexivity.
Qed.

Lemma note_always_reports_witness :
  exists w',
    FixNote.main Samples.plain_world = Ok tt w' /\
    files w' !! FixNote.note_rs
    = Some (write_newlines (linesep Samples.plain_world)
              (FixNote.new_content (read_newlines Samples.plain_text))) /\
    written (since Samples.plain_world w') = [FixNote.note_rs] /\
    printed (since Samples.plain_world w') = ["Fixed Note constructors"].
Proof.
  apply (note_always_reports Samples.plain_world Samples.plain_text).
  vm_compute. reflexivity.
Defined.

(** X9.  After a run of fix_repo.py each of the two listed files is as
    follows: missing if it was missing (no file is created); as it was,
    byte for byte, if the substitution changes nothing in it; otherwise
    the substituted text with [\n] written as the platform's separator.
    What happens to one file does not depend on the other. *)
Theorem repo_main_files (w : world) :
  exists w',
    FixRepo.main w = Ok tt w' /\
    forall p, p ∈ FixRepo.files_to_fix ->
      files w' !! p
      = match files w !! p with
        | None => None
        | Some raw =>
            if decide (FixRepo.new_content (read_newlines raw)
                       = read_newlines raw)
            then Some raw
            else Some (write_newlines (linesep w)
                         (FixRepo.new_content (read_newlines raw)))
        end.
Proof.
  destruct (RepoRun.for_each_files FixRepo.files_to_fix
              RunFacts.files_to_fix_distinct w)
    as (w' & Hrun & _ & _ & Hfiles).
  by exists w'.
Qed.

(** X10.  Line endings of the platform survive a run of fix_note.py: if the
    file holds a text without carriage returns written with the
    platform's separator ([\n] or [\r\n]), the run works on that text and
    writes the result with the same separator; when nothing matches, the
    file is the same afterwards, byte for byte. *)
Theorem note_native_newlines (w : world) (data : text) :
  linesep w = [LF] \/ linesep w = [CR; LF] ->
  forallb not_cr data = true ->
  files w !! FixNote.note_rs = Some (write_newlines (linesep w) data) ->
  exists w',
    FixNote.main w = Ok tt w' /\
    files w' !! FixNote.note_rs
    = Some (write_newlines (linesep w) (FixNote.new_content data)) /\
    (finditer FixNote.pattern data = [] -> files w' = files w).
Proof.
  intros Hsep Hcr Hfile. eexists.
  split; [by apply (RunFacts.run_note _ _ Hfile)|].
  rewrite (NewlineFacts.read_write_native _ _ Hsep Hcr). simpl.
  rewrite lookup_insert_eq. split; [reflexivity|].
  intros Hnone. rewrite (proj2 (RunFacts.note_changed_iff data) Hnone).
  by apply insert_id.
Qed.

Lemma note_native_newlines_witness :
  exists w',
    FixNote.main Cases.windows_world = Ok tt w' /\
    files w' !! FixNote.note_rs
    = Some (write_newlines (linesep Cases.windows_world)
              (FixNote.new_content (T "a" ++ [LF] ++ T "b"))) /\
    (finditer FixNote.pattern (T "a" ++ [LF] ++ T "b") = [] ->
     files w' = files Cases.windows_world).
Proof.
  apply (note_native_newlines Cases.windows_world (T "a" ++ [LF] ++ T "b"));
    [right|..]; vm_compute; reflexivity.
Defined.

(** X11.  On a platform whose separator is [\n], no carriage return is
    left in a file that one of the scripts has written: fix_note.py
    always writes, fix_repo_constructors writes when the substitution
    changed the content.  Line endings [\r\n] and [\r] of the file become
    [\n] as a side effect.  The two runs are independent: each has its own
    world. *)
Theorem written_file_has_no_cr
    (wn : world) (raw : text)
    (wr : world) (file_path : string) (raw_repo : text) :
  linesep wn = [LF] ->
  files wn !! FixNote.note_rs = Some raw ->
  linesep wr = [LF] ->
  files wr !! file_path = Some raw_repo ->
  FixRepo.new_content (read_newlines raw_repo) <> read_newlines raw_repo ->
  (exists w' out,
     FixNote.main wn = Ok tt w' /\
     files w' !! FixNote.note_rs = Some out /\
     forallb not_cr out = true) /\
  (exists w' out,
     FixRepo.fix_repo_constructors file_path wr = Ok tt w' /\
     files w' !! file_path = Some out /\
     forallb not_cr out = true).
Proof.
  intros Hsepn Hnote Hsepr Hrepo Hdiff. split.
  - eexists _, _. split; [by apply (RunFacts.run_note _ _ Hnote)|].
    simpl. rewrite lookup_insert_eq. split; [reflexivity|].
    rewrite Hsepn, RunFacts.write_newlines_lf.
    apply (InsertOnly.sub_forallb _ _ FixNote.INSERTED
             NoteFacts.note_nonempty NoteInsert.note_shape);
      [reflexivity|apply NewlineFacts.read_newlines_strips_cr].
  - eexists _, _.
    split; [by apply (RunFacts.run_fix_repo_changed _ _ _ Hrepo)|].
    simpl. rewrite lookup_insert_eq. split; [reflexivity|].
    rewrite Hsepr, RunFacts.write_newlines_lf.
    apply (InsertOnly.sub_forallb _ _ FixRepo.INSERTED
             RepoFacts.repo_nonempty RepoInsert.repo_shape);
      [reflexivity|apply NewlineFacts.read_newlines_strips_cr].
Qed.

Lemma written_file_has_no_cr_witness :
  (exists w' out,
     FixNote.main Samples.crlf_world = Ok tt w' /\
     files w' !! FixNote.note_rs = Some out /\
     forallb not_cr out = true) /\
  (exists w' out,
     FixRepo.fix_repo_constructors "src/db/sqlite/repo_test.rs"
       Cases.repo_crlf_world = Ok tt w' /\
     files w' !! "src/db/sqlite/repo_test.rs" = Some out /\
     forallb not_cr out = true).
Proof.
  apply (written_file_has_no_cr Samples.crlf_world Samples.crlf_text
           Cases.repo_crlf_world "src/db/sqlite/repo_test.rs"
           Cases.repo_crlf);
    try (vm_compute; reflexivity).
  vm_compute. discriminate.
Defined.

(** ** Closing braces separate what fix_note.py works on *)

Module BraceFacts.
Import ReFacts Hits HitFacts GreedyFacts LastHit FixNote.

(** A run without closing brace at the start of [a ++ } ++ b] lies in [a]. *)
Lemma brace_free_prefix (u t a b : text) :
  u ++ t = a ++ RBRACE :: b -> forallb not_rbrace u = true ->
  exists l, a = u ++ l /\ t = l ++ RBRACE :: b.
Proof.
  intros Heq Hu. apply app_eq_app in Heq as [l [[-> Hl]|[-> ->]]].
  - destruct l as [|d l].
    + exists []. rewrite !app_nil_r. simpl in Hl. by subst t.
    + injection Hl as <- _. rewrite forallb_app in Hu.
      apply andb_true_iff in Hu as [_ Hu]. discriminate Hu.
  - by exists l.
Qed.

Lemma reach_app l w : reach l = true -> reach (l ++ w) = true.
Proof.
  intros (x & y & -> & Hx & Hy)%reach_inv. rewrite <- (app_assoc x).
  apply reach_skip; [exact Hx|]. by apply reach_hit, NoteDirty.is_hit_app.
Qed.

Lemma hit_brace_free ws :
  forallb isspace ws = true ->
  forallb not_rbrace (NOTE_TYPE ++ ws ++ CREATED_AT) = true.
Proof.
  intros Hws. rewrite !forallb_app.
  by rewrite (NoteSub.forallb_impl _ _ _ NoteDirty.isspace_not_rbrace Hws).
Qed.

(** What is in reach does not depend on the text behind the next closing
    brace. *)
Lemma reach_rbrace l b : reach (l ++ RBRACE :: b) = reach l.
Proof.
  destruct (reach l) eqn:Hl; [by apply reach_app|].
  destruct (reach (l ++ RBRACE :: b)) eqn:Hr; [exfalso|reflexivity].
  apply reach_inv in Hr as (x & y & Heq & Hx & (ws & r & -> & Hws)%is_hit_inv).
  assert ((x ++ NOTE_TYPE ++ ws ++ CREATED_AT) ++ r = l ++ RBRACE :: b) as E.
  { rewrite Heq, <- (app_assoc x), <- (app_assoc NOTE_TYPE),
      <- (app_assoc ws). reflexivity. }
  apply brace_free_prefix in E as (l2 & -> & _).
  - rewrite <- (app_assoc x), <- (app_assoc NOTE_TYPE), <- (app_assoc ws),
      (reach_skip _ _ Hx (reach_hit _ (is_hit_intro ws l2 Hws))) in Hl.
    discriminate.
  - rewrite forallb_app, Hx. by apply hit_brace_free.
Qed.

(** Nor does the match at the start of a text. *)
Lemma match_rbrace a b :
  re_match pattern (a ++ RBRACE :: b)
  = match re_match pattern a with
    | Some (caps, rest) => Some (caps, rest ++ RBRACE :: b)
    | None => None
    end.
Proof.
  destruct (re_match pattern a) as [[caps rest]|] eqn:Ha.
  - pose proof (match_last _ _ _ Ha) as Hrest.
    destruct (NoteFacts.note_match_inv _ _ _ Ha)
      as (mid & ws & -> & -> & Hmid & Hws).
    rewrite <- (app_assoc _ _ (RBRACE :: b)), <- (app_assoc CREATED_AT).
    apply match_exact; [exact Hmid|exact Hws|].
    by rewrite reach_rbrace.
  - destruct (re_match pattern (a ++ RBRACE :: b)) as [[caps rest]|] eqn:Hab;
      [exfalso|reflexivity].
    pose proof (match_last _ _ _ Hab) as Hrest.
    destruct (NoteFacts.note_match_inv _ _ _ Hab)
      as (mid & ws & -> & Heq & Hmid & Hws).
    rewrite (app_assoc _ CREATED_AT) in Heq. symmetry in Heq.
    apply brace_free_prefix in Heq as (l & -> & ->).
    + rewrite reach_rbrace in Hrest.
      rewrite <- (app_assoc _ CREATED_AT),
        (match_exact mid ws l Hmid Hws Hrest) in Ha.
      discriminate.
    + rewrite <- (app_assoc NOTE_OPEN), <- (app_assoc mid),
        <- (app_assoc NOTE_TYPE), !forallb_app, Hmid.
      change (forallb not_rbrace NOTE_OPEN) with true. cbn [andb].
      rewrite <- forallb_app. by apply hit_brace_free.
Qed.

Lemma sub_rbrace a b :
  new_content (a ++ RBRACE :: b) = new_content a ++ RBRACE :: new_content b.
Proof.
  unfold new_content.
  remember (length a) as n eqn:Hn. revert a Hn.
  induction n as [n IH] using lt_wf_ind. intros a ->.
  destruct a as [|c a].
  - change (sub pattern replace_func (RBRACE :: b)
            = RBRACE :: sub pattern replace_func b).
    by apply sub_nomatch.
  - pose proof (match_rbrace (c :: a) b) as Hab.
    destruct (re_match pattern (c :: a)) as [[caps rest]|] eqn:Ha.
    + rewrite (sub_match _ _ NoteFacts.note_nonempty _ _ _ Hab),
        (sub_match _ _ NoteFacts.note_nonempty _ _ _ Ha).
      rewrite (IH _ (NoteFacts.note_nonempty _ _ _ Ha) rest eq_refl).
      by rewrite <- app_assoc.
    + rewrite <- app_comm_cons in Hab |- *.
      rewrite (sub_nomatch _ _ _ _ Hab), (sub_nomatch _ _ _ _ Ha).
      rewrite (IH (length a) ltac:(simpl; lia) a eq_refl). reflexivity.
Qed.

End BraceFacts.

(** X12.  fix_note.py works on the text before and after a closing brace
    separately: no match crosses a [}], so the output for [a}b] is the
    output for [a], the brace, and the output for [b]. *)
Theorem note_splits_at_rbrace (a b : text) :
  FixNote.new_content (a ++ [RBRACE] ++ b)
  = FixNote.new_content a ++ [RBRACE] ++ FixNote.new_content b.
Proof. apply BraceFacts.sub_rbrace. Qed.

(** X13.  A text that holds, anywhere, [Note {], a run without a closing
    brace, [note_type,], whitespace and the assignment
    [created_at: row.get("created_at"),] is changed by fix_note.py's
    substitution: at least one field is inserted. *)
Theorem note_construction_patched (content pre mid ws post : text) :
  content
  = pre ++ FixNote.NOTE_OPEN ++ mid ++ FixNote.NOTE_TYPE ++ ws
      ++ FixNote.CREATED_AT ++ post ->
  forallb not_rbrace mid = true -> forallb isspace ws = true ->
  finditer FixNote.pattern content <> [] /\
  FixNote.new_content content <> content /\
  length content + 96 <= length (FixNote.new_content content).
Proof.
  intros Hcontent Hmid Hws.
  assert (finditer FixNote.pattern content <> []) as Hsome.
  { intros Hnone.
    apply (ReFacts.finditer_from_nowhere _ NoteFacts.note_nonempty) in Hnone.
    destruct (GreedyFacts.reach_match
                (mid ++ FixNote.NOTE_TYPE ++ ws ++ FixNote.CREATED_AT ++ post))
      as [r Hr].
    { apply HitFacts.reach_skip; [exact Hmid|].
      by apply HitFacts.reach_hit, HitFacts.is_hit_intro. }
    rewrite (Hnone pre _ Hcontent) in Hr. discriminate. }
  split; [exact Hsome|]. split.
  - by rewrite RunFacts.note_changed_iff.
  - unfold FixNote.new_content.
    rewrite (InsertOnly.sub_length_matches _ _ FixNote.INSERTED
               NoteFacts.note_nonempty NoteInsert.note_shape content 0).
    unfold finditer in Hsome.
    destruct (finditer_from FixNote.pattern 0 0 content); [done|].
    change (length FixNote.INSERTED) with 96. simpl. lia.
Qed.

Lemma note_construction_patched_witness :
  finditer FixNote.pattern Samples.two_constructions <> [] /\
  FixNote.new_content Samples.two_constructions <> Samples.two_constructions /\
  length Samples.two_constructions + 96
  <= length (FixNote.new_content Samples.two_constructions).
Proof.
  apply (note_construction_patched Samples.two_constructions
           (T "Note {note_type," ++ FixNote.CREATED_AT ++ T "} ")
           [] [] (T "}"));
    vm_compute; reflexivity.
Defined.
